(** * Heterogeneous link prediction on MovieLens: the example script, verified

    A shallow embedding of [examples/hetero/hetero_link_pred.py].

    Numbers.  The script computes on [float32] tensors.  A tensor element is
    modelled as an extended rational [fval]: a finite value carried exactly,
    the two infinities, and NaN, with the IEEE-754 rules for the special
    values.  Rounding is left out (every finite result is exact) and zero has
    no sign (a zero divisor counts as +0, which is what the script divides by:
    its divisors are counts).  Comparisons are the IEEE ones: every
    comparison with NaN is false.  Where the rounding decides a property, in
    the weights of line 45, the cast and the division are also given with
    their rounding to float32 ([round32]).

    Errors.  An operation that raises in Python ([IndexError], a shape
    mismatch, [max] of an empty tensor) returns [None].

    External layers.  The graph convolutions, automatic differentiation and
    the Adam update are library code; the script is modelled over them, as
    the fields of the class [Backend].

    Effects.  The script mutates one model and one optimizer and prints: it
    runs in a state monad over a [world], which also keeps the trace of what
    was executed. *)

From Stdlib Require Import String.
From Stdlib Require Import QArith ZArith List Bool Arith Lia Lqa.
From Stdlib Require Import Qround Qpower.
From Stdlib Require Qcanon.
From Stdlib Require Import SpecFloat.
Import ListNotations.

Local Open Scope Z_scope.

(** ** The option monad, for operations that raise *)

Definition obind {A B} (o : option A) (f : A -> option B) : option B :=
  match o with
  | Some a => f a
  | None => None
  end.

Notation "x <- c ;; k" := (obind c (fun x => k))
  (at level 61, c at next level, right associativity).

Fixpoint mapM {A B} (f : A -> option B) (l : list A) : option (list B) :=
  match l with
  | [] => Some []
  | a :: l' => b <- f a ;; bs <- mapM f l' ;; Some (b :: bs)
  end.

(** ** Tensor elements *)

Module Scalar.

Inductive fval : Type :=
| Fin (q : Q)
| PInf
| NInf
| NaN.

Definition of_int (z : Z) : fval := Fin (inject_Z z).

Definition fneg (a : fval) : fval :=
  match a with
  | Fin x => Fin (- x)
  | PInf => NInf
  | NInf => PInf
  | NaN => NaN
  end.

Definition fadd (a b : fval) : fval :=
  match a, b with
  | NaN, _ | _, NaN => NaN
  | Fin x, Fin y => Fin (x + y)
  | PInf, NInf | NInf, PInf => NaN
  | PInf, _ | _, PInf => PInf
  | NInf, _ | _, NInf => NInf
  end.

Definition fsub (a b : fval) : fval := fadd a (fneg b).

(** The sign of an infinity scaled by a finite factor; 0 * inf is NaN. *)
Definition scale_inf (x : Q) (pos neg : fval) : fval :=
  match (0 ?= x)%Q with
  | Lt => pos
  | Gt => neg
  | Eq => NaN
  end.

Definition fmul (a b : fval) : fval :=
  match a, b with
  | NaN, _ | _, NaN => NaN
  | Fin x, Fin y => Fin (x * y)
  | Fin x, PInf | PInf, Fin x => scale_inf x PInf NInf
  | Fin x, NInf | NInf, Fin x => scale_inf x NInf PInf
  | PInf, PInf | NInf, NInf => PInf
  | PInf, NInf | NInf, PInf => NInf
  end.

Definition fdiv (a b : fval) : fval :=
  match a, b with
  | NaN, _ | _, NaN => NaN
  | Fin x, Fin y =>
      if Qeq_bool y 0 then scale_inf x PInf NInf else Fin (x / y)
  | Fin _, PInf | Fin _, NInf => Fin 0
  | PInf, Fin y => match (0 ?= y)%Q with Gt => NInf | _ => PInf end
  | NInf, Fin y => match (0 ?= y)%Q with Gt => PInf | _ => NInf end
  | _, _ => NaN
  end.

(** [x.pow(2)] *)
Definition fpow2 (a : fval) : fval := fmul a a.

(** IEEE comparison: [None] when an operand is NaN (unordered). *)
Definition fcompare (a b : fval) : option comparison :=
  match a, b with
  | NaN, _ | _, NaN => None
  | Fin x, Fin y => Some (x ?= y)%Q
  | PInf, PInf | NInf, NInf => Some Eq
  | _, PInf | NInf, _ => Some Lt
  | PInf, _ | _, NInf => Some Gt
  end.

Definition feqb (a b : fval) : bool :=
  match fcompare a b with Some Eq => true | _ => false end.

Definition fltb (a b : fval) : bool :=
  match fcompare a b with Some Lt => true | _ => false end.

Definition fleb (a b : fval) : bool :=
  match fcompare a b with Some Lt | Some Eq => true | _ => false end.

Definition is_nan (a : fval) : bool :=
  match a with NaN => true | _ => false end.

Definition fmax (a b : fval) : fval :=
  if is_nan a || is_nan b then NaN else if fltb a b then b else a.

Definition fmin (a b : fval) : fval :=
  if is_nan a || is_nan b then NaN else if fltb b a then b else a.

(** [x.clamp(min=lo, max=hi)]: min(max(x, lo), hi); NaN stays NaN. *)
Definition fclamp (lo hi : fval) (x : fval) : fval := fmin (fmax x lo) hi.

(** [x.relu()] *)
Definition frelu (x : fval) : fval := fmax x (Fin 0).

(** The square root is irrational in general: a root is carried exactly by
    its radicand. *)
Inductive root : Type := Sqrt (radicand : fval).

Definition squared (r : root) : fval := match r with Sqrt x => x end.

End Scalar.

Import Scalar.

(** ** One-dimensional tensors *)

Definition tensor := list fval.

(** [t.to(float)] of an integer tensor *)
Definition to_dtype (t : list Z) : tensor := map of_int t.

(** Position of index [i] in a dimension of size [len]: negative indices
    count from the end, anything outside [-len, len) raises IndexError. *)
Definition norm_index (len : nat) (i : Z) : option nat :=
  if (0 <=? i) && (i <? Z.of_nat len) then Some (Z.to_nat i)
  else if (- Z.of_nat len <=? i) && (i <? 0) then Some (Z.to_nat (i + Z.of_nat len))
  else None.

Definition getitem {A} (t : list A) (i : Z) : option A :=
  n <- norm_index (length t) i ;; nth_error t n.

(** [t[idx]] for an index tensor [idx] *)
Definition index_tensor {A} (t : list A) (idx : list Z) : option (list A) :=
  mapM (getitem t) idx.

Fixpoint map2 {A B C} (f : A -> B -> C) (a : list A) (b : list B) : list C :=
  match a, b with
  | x :: a', y :: b' => f x y :: map2 f a' b'
  | _, _ => []
  end.

(** Element-wise binary operation with broadcasting of 1-d shapes: equal
    sizes, or one side of size 1; any other pair of sizes raises. *)
Definition broadcast2 (f : fval -> fval -> fval) (a b : tensor) : option tensor :=
  if (length a =? length b)%nat then Some (map2 f a b)
  else match a, b with
       | [x], _ => Some (map (f x) b)
       | _, [y] => Some (map (fun x => f x y) a)
       | _, _ => None
       end.

(** Left operand of the product in the loss: the Python float [1.] or the
    gathered weight tensor. *)
Inductive operand : Type :=
| Scalar (x : fval)
| Vec (v : tensor).

Definition mul_operand (w : operand) (v : tensor) : option tensor :=
  match w with
  | Scalar x => Some (map (fmul x) v)
  | Vec a => broadcast2 fmul a v
  end.

Definition pow2 (t : tensor) : tensor := map fpow2 t.

Definition tsum (t : tensor) : fval := fold_left fadd t (Fin 0).

(** [t.mean()]; the mean of an empty tensor is 0/0 = NaN. *)
Definition mean (t : tensor) : fval :=
  fdiv (tsum t) (of_int (Z.of_nat (length t))).

(** ** The loss (lines 50-52) *)

Definition weighted_mse_loss (pred : tensor) (target : list Z)
    (weight : option tensor) : option fval :=
  w <- match weight with
       | None => Some (Scalar (Fin 1))
       | Some wt => option_map Vec (index_tensor wt target)
       end ;;
  d <- broadcast2 fsub pred (to_dtype target) ;;
  p <- mul_operand w (pow2 d) ;;
  Some (mean p).

(** [F.mse_loss(input, target)] with the default mean reduction *)
Definition mse_loss (input target : tensor) : option fval :=
  d <- broadcast2 fsub input target ;;
  Some (mean (pow2 d)).

(** The loss as section 4.3 of the specification words it: the mean over
    the edges of weight[target] * (pred - target)^2, the weight of every
    label being 1 when no weight vector is given. *)
Definition label_weight (weight : option tensor) (t : Z) : option fval :=
  match weight with
  | None => Some (Fin 1)
  | Some wt => getitem wt t
  end.

Definition edge_term (w p : fval) (t : Z) : fval :=
  fmul w (fmul (fsub p (of_int t)) (fsub p (of_int t))).

Fixpoint edge_terms (weight : option tensor) (pred : tensor) (target : list Z)
    : option tensor :=
  match pred, target with
  | p :: ps, t :: ts =>
      w <- label_weight weight t ;;
      r <- edge_terms weight ps ts ;;
      Some (edge_term w p t :: r)
  | _, _ => Some []
  end.

Definition mean_weighted_sq_error (weight : option tensor) (pred : tensor)
    (target : list Z) : option fval :=
  option_map mean (edge_terms weight pred target).

(** ** The label weights (lines 43-47) *)

(** [t.max()] of an integer tensor; raises on an empty tensor. *)
Definition tensor_max (t : list Z) : option Z :=
  match t with
  | [] => None
  | x :: t' => Some (fold_left Z.max t' x)
  end.

Definition count (v : Z) (input : list Z) : Z :=
  Z.of_nat (count_occ Z.eq_dec input v).

(** [torch.bincount(input)]: one bin for each value from 0 to the largest
    one; no bin at all for an empty input; a negative value raises. *)
Definition bincount (input : list Z) : option (list Z) :=
  if existsb (fun v => v <? 0) input then None
  else match tensor_max input with
       | None => Some []
       | Some m =>
           Some (map (fun v => count (Z.of_nat v) input) (seq 0 (S (Z.to_nat m))))
       end.

(** [a / b] for a 0-dimensional integer [a] and an integer tensor [b]: true
    division, the result is a float tensor. *)
Definition int_true_divide (a : Z) (b : list Z) : tensor :=
  map (fun c => fdiv (of_int a) (of_int c)) b.

(** Lines 44-45. *)
Definition inverse_frequency_weight (edge_label : list Z) : option tensor :=
  weight <- bincount edge_label ;;
  m <- tensor_max weight ;;
  Some (int_true_divide m weight).

(** Lines 43-47: the global [weight]. *)
Definition script_weight (use_weighted_loss : bool) (edge_label : list Z)
    : option (option tensor) :=
  if use_weighted_loss then option_map Some (inverse_frequency_weight edge_label)
  else Some None.

(** ** The division of line 45 in float32 *)

(** [int_true_divide] above is the quotient without rounding.  Line 45
    casts the integer counts to float32 and divides in float32: the cast and
    the quotient are each rounded to the nearest float32, ties to the even
    mantissa.  A float32 has 24 significant bits, exponents from -126 to 127
    (a unit in the last place of at least 2^-149) and overflows to infinity
    from 2^128 on. *)

(** Nearest integer, ties to even. *)
Definition rne (x : Q) : Z :=
  let f := Qfloor x in
  match (x - inject_Z f ?= 1 # 2)%Q with
  | Lt => f
  | Gt => f + 1
  | Eq => if Z.even f then f else f + 1
  end.

(** The exponent [e] of a positive rational: 2^e <= q < 2^(e+1). *)
Definition ilog2 (q : Q) : Z :=
  let e0 := Z.log2 (Qnum q) - Z.log2 (Zpos (Qden q)) in
  if Qle_bool (2 ^ e0) q then e0 else e0 - 1.

(** The float32 nearest to a positive rational. *)
Definition round_pos (q : Q) : fval :=
  let ulp := (2 ^ Z.max (ilog2 q - 23) (-149))%Q in
  let v := (inject_Z (rne (q / ulp)) * ulp)%Q in
  if Qle_bool (2 ^ 128) v then PInf else Fin (Qred v).

Definition round32 (q : Q) : fval :=
  match (0 ?= q)%Q with
  | Eq => Fin 0
  | Lt => round_pos (Qred q)
  | Gt => fneg (round_pos (Qred (- q)))
  end.

(** [t.to(torch.float32)] of an integer *)
Definition f32_of_int (z : Z) : fval := round32 (inject_Z z).

Definition round_fval (x : fval) : fval :=
  match x with
  | Fin q => round32 q
  | _ => x
  end.

(** Division of two float32 values *)
Definition fdiv32 (a b : fval) : fval := round_fval (fdiv a b).

(** [a / b] for a 0-dimensional integer [a] and an integer tensor [b], with
    the rounding. *)
Definition int_true_divide_f32 (a : Z) (b : list Z) : tensor :=
  map (fun c => fdiv32 (f32_of_int a) (f32_of_int c)) b.

(** Lines 44-45, with the rounding. *)
Definition inverse_frequency_weight_f32 (edge_label : list Z) : option tensor :=
  weight <- bincount edge_label ;;
  m <- tensor_max weight ;;
  Some (int_true_divide_f32 m weight).

(** The value of a float of the standard library's IEEE 754 model, to
    compare [round32] with. *)
Definition of_spec_float (x : spec_float) : fval :=
  match x with
  | S754_zero _ => Fin 0
  | S754_infinity s => if s then NInf else PInf
  | S754_nan => NaN
  | S754_finite s m e =>
      Fin (Qred ((if s then - (1) else 1) * inject_Z (Zpos m) * 2 ^ e))
  end.

(** A label vector with [a] labels 0 followed by [b] labels 1. *)
Definition two_bins (a b : positive) : list Z :=
  Pos.iter (cons 0) (Pos.iter (cons 1) [] b) a.

(** ** The decoder (lines 68-80) *)

Definition matrix := list (list fval).

(** [torch.nn.Linear]: [weight] has [out_features] rows of [in_features]
    entries, [bias] has [out_features] entries. *)
Record Linear : Type := mkLinear {
  in_features : nat;
  out_features : nat;
  lweight : matrix;
  lbias : tensor
}.

Definition dot (x w : tensor) : fval := tsum (map2 fmul x w).

(** One input row through the layer: x W^T + b. *)
Definition affine (l : Linear) (x : tensor) : tensor :=
  map2 (fun w b => fadd (dot x w) b) (lweight l) (lbias l).

(** The layer on a batch; an input row of the wrong width raises. *)
Definition Linear_forward (l : Linear) (x : matrix) : option matrix :=
  mapM (fun r => if (length r =? in_features l)%nat then Some (affine l r) else None) x.

Definition relu (x : matrix) : matrix := map (map frelu) x.

(** [torch.cat([a, b], dim=-1)] of two matrices: same number of rows. *)
Definition cat_last (a b : matrix) : option matrix :=
  if (length a =? length b)%nat then Some (map2 (@app fval) a b) else None.

(** [z.view(-1)] *)
Definition view_flat (z : matrix) : tensor := concat z.

Record EdgeDecoder : Type := mkEdgeDecoder {
  lin1 : Linear;
  lin2 : Linear
}.

(** The mapping from node type to latent matrix; a missing key raises. *)
Definition z_dict_t := list (string * matrix).

Fixpoint dict_get {V} (d : list (string * V)) (k : string) : option V :=
  match d with
  | [] => None
  | (k', v) :: d' => if String.eqb k k' then Some v else dict_get d' k
  end.

(** Lines 74-80.  [edge_label_index] is unpacked into exactly two rows. *)
Definition EdgeDecoder_forward (self : EdgeDecoder) (z_dict : z_dict_t)
    (edge_label_index : list (list Z)) : option tensor :=
  match edge_label_index with
  | [row; col] =>
      zu <- dict_get z_dict "user"%string ;;
      zu_row <- index_tensor zu row ;;
      zm <- dict_get z_dict "movie"%string ;;
      zm_col <- index_tensor zm col ;;
      z <- cat_last zu_row zm_col ;;
      z <- Linear_forward (lin1 self) z ;;
      z <- Linear_forward (lin2 self) (relu z) ;;
      Some (view_flat z)
  | _ => None
  end.

(** The score of one candidate pair as section 4.5 words it: the two latent
    vectors concatenated, one hidden linear layer with a non-linearity, one
    linear layer with a single output. *)
Fixpoint weighted_sum (acc : fval) (x w : tensor) : fval :=
  match x, w with
  | a :: x', c :: w' => weighted_sum (fadd acc (fmul a c)) x' w'
  | _, _ => acc
  end.

(** One output for each row of the weights: the sum of the inputs times the
    row, plus the bias of the row. *)
Fixpoint linear_layer (weight : matrix) (bias : tensor) (x : tensor) : tensor :=
  match weight, bias with
  | w :: weight', b :: bias' =>
      fadd (weighted_sum (Fin 0) x w) b :: linear_layer weight' bias' x
  | _, _ => []
  end.

(** The non-linearity: a negative value becomes 0, anything else (NaN
    included) is kept. *)
Definition rectify (x : fval) : fval :=
  match fcompare x (Fin 0) with
  | Some Lt => Fin 0
  | _ => x
  end.

Definition pair_score (self : EdgeDecoder) (u m : tensor) : tensor :=
  linear_layer (lweight (lin2 self)) (lbias (lin2 self))
    (map rectify
       (linear_layer (lweight (lin1 self)) (lbias (lin1 self)) (u ++ m))).

(** Shapes set up by the constructor (lines 71-72) for [hidden_channels]. *)
Definition Linear_shape (l : Linear) (n_in n_out : nat) : Prop :=
  in_features l = n_in /\ out_features l = n_out /\
  length (lweight l) = n_out /\ length (lbias l) = n_out /\
  Forall (fun r => length r = n_in) (lweight l).

Definition EdgeDecoder_shape (self : EdgeDecoder) (hidden_channels : nat) : Prop :=
  Linear_shape (lin1 self) (2 * hidden_channels) hidden_channels /\
  Linear_shape (lin2 self) hidden_channels 1.

(** ** The library under the script *)

(** What the script takes from torch and torch_geometric: the encoder that
    [to_hetero] builds from the two [SAGEConv] layers (with its lazily
    shaped parameters), automatic differentiation and Adam. *)
Class Backend : Type := {
  EncParams : Type;
  Grad : Type;
  OptState : Type;
  (** [x_dict] and [edge_index_dict] of a data object *)
  Graph : Type;
  (** parameters of [to_hetero(GNNEncoder(h, h), ...)], not yet shaped *)
  encoder_init : nat -> EncParams;
  (** initial parameters of [EdgeDecoder(h)] *)
  decoder_init : nat -> EdgeDecoder;
  (** some parameter is still an uninitialized placeholder *)
  is_lazy : EncParams -> bool;
  (** shape inference, run by a forward pass on its input *)
  materialize : EncParams -> Graph -> EncParams;
  (** the latent vectors computed by the encoder *)
  encoder : EncParams -> Graph -> option z_dict_t;
  (** gradient of the loss of the model on a data object; the arguments are
      the parameters, the graph, the pairs, the labels and the weights *)
  autograd : EncParams -> EdgeDecoder -> Graph -> list (list Z) -> list Z ->
             option tensor -> Grad;
  grad_add : Grad -> Grad -> Grad;
  (** [torch.optim.Adam(params, lr)] and one [step()] of it *)
  adam_init : EncParams -> EdgeDecoder -> OptState;
  adam_step : Q -> OptState -> EncParams -> EdgeDecoder -> Grad ->
              OptState * (EncParams * EdgeDecoder)
}.

Section Script.

Context {B : Backend}.

(** A data object, as far as the script reads it. *)
Record HeteroData : Type := mkHeteroData {
  graph : Graph;
  (** [data['user', 'movie'].edge_label_index] *)
  edge_label_index : list (list Z);
  (** [data['user', 'movie'].edge_label] *)
  edge_label : list Z
}.

Record Model : Type := mkModel {
  encoder_params : EncParams;
  decoder : EdgeDecoder;
  (** [model.training] *)
  training : bool
}.

Record Optimizer : Type := mkOptimizer {
  (** the parameters the optimizer was given *)
  opt_params : EncParams * EdgeDecoder;
  lr : Q;
  opt_state : OptState
}.

(** One printed line (lines 133-134). *)
Record line : Type := mkLine {
  line_epoch : nat;
  line_loss : fval;
  line_train : root;
  line_val : root;
  line_test : root
}.

Inductive event : Type :=
| EvConstruct (hidden_channels : nat)
| EvEncoderForward (grad : bool)
| EvForward (grad : bool) (train_mode : bool)
| EvBackward
| EvOptimizerInit
| EvStep
| EvPrint (l : line).

Record world : Type := mkWorld {
  model : Model;
  (** [torch.is_grad_enabled()] *)
  grad_enabled : bool;
  (** the [.grad] of the parameters *)
  grads : option Grad;
  optimizer : option Optimizer;
  stdout : list line;
  trace : list event
}.

Definition M (A : Type) : Type := world -> option (A * world).

Definition ret {A} (a : A) : M A := fun w => Some (a, w).

Definition bind {A C} (m : M A) (k : A -> M C) : M C :=
  fun w => match m w with
           | Some (a, w') => k a w'
           | None => None
           end.

Definition lift {A} (o : option A) : M A :=
  fun w => match o with Some a => Some (a, w) | None => None end.

Definition set_model (m : Model) (w : world) : world :=
  mkWorld m (grad_enabled w) (grads w) (optimizer w) (stdout w) (trace w).

Definition set_grad_enabled (b : bool) (w : world) : world :=
  mkWorld (model w) b (grads w) (optimizer w) (stdout w) (trace w).

Definition set_grads (g : option Grad) (w : world) : world :=
  mkWorld (model w) (grad_enabled w) g (optimizer w) (stdout w) (trace w).

Definition set_optimizer (o : option Optimizer) (w : world) : world :=
  mkWorld (model w) (grad_enabled w) (grads w) o (stdout w) (trace w).

Definition log (e : event) (w : world) : world :=
  mkWorld (model w) (grad_enabled w) (grads w) (optimizer w) (stdout w)
          (trace w ++ [e]).

Definition put_line (l : line) (w : world) : world :=
  mkWorld (model w) (grad_enabled w) (grads w) (optimizer w) (stdout w ++ [l])
          (trace w ++ [EvPrint l]).

(** [with torch.no_grad(): ...] and the decorator [@torch.no_grad()] *)
Definition no_grad {A} (m : M A) : M A :=
  fun w => match m (set_grad_enabled false w) with
           | Some (a, w') => Some (a, set_grad_enabled (grad_enabled w) w')
           | None => None
           end.

(** [model.train()] and [model.eval()] *)
Definition set_training (b : bool) : M unit :=
  fun w => Some (tt, set_model (mkModel (encoder_params (model w))
                                        (decoder (model w)) b) w).

(** [model.encoder(x_dict, edge_index_dict)] *)
Definition encoder_call (g : Graph) : M z_dict_t :=
  fun w =>
    let m := model w in
    let p := materialize (encoder_params m) g in
    match encoder p g with
    | Some z =>
        Some (z, log (EvEncoderForward (grad_enabled w))
                     (set_model (mkModel p (decoder m) (training m)) w))
    | None => None
    end.

(** Lines 90-92; the result carries whether it is attached to a gradient
    graph. *)
Definition Model_forward (d : HeteroData) : M (tensor * bool) :=
  fun w =>
    let m := model w in
    let p := materialize (encoder_params m) (graph d) in
    match encoder p (graph d) with
    | Some z_dict =>
        match EdgeDecoder_forward (decoder m) z_dict (edge_label_index d) with
        | Some pred =>
            Some ((pred, grad_enabled w),
                  log (EvForward (grad_enabled w) (training m))
                      (set_model (mkModel p (decoder m) (training m)) w))
        | None => None
        end
    | None => None
    end.

(** Line 95. *)
Definition Model_init (hidden_channels : nat) : Model :=
  mkModel (encoder_init hidden_channels) (decoder_init hidden_channels) true.

Definition start : world :=
  mkWorld (Model_init 32) true None None [] [EvConstruct 32].

(** Line 102. *)
Definition Adam (learning_rate : Q) : M unit :=
  fun w =>
    let m := model w in
    Some (tt, log EvOptimizerInit
                  (set_optimizer
                     (Some (mkOptimizer (encoder_params m, decoder m) learning_rate
                                        (adam_init (encoder_params m) (decoder m))))
                     w)).

(** Lines 95-102, after the construction of the model. *)
Definition initialize (train_data : HeteroData) : M unit :=
  bind (no_grad (encoder_call (graph train_data))) (fun _ => Adam (1 # 100)).

(** [optimizer.zero_grad()] *)
Definition zero_grad : M unit :=
  fun w => match optimizer w with
           | Some _ => Some (tt, set_grads None w)
           | None => None
           end.

(** [loss.backward()]: raises when the loss is detached from the graph. *)
Definition backward (requires_grad : bool) (d : HeteroData)
    (weight : option tensor) : M unit :=
  fun w =>
    if requires_grad then
      let m := model w in
      let g := autograd (encoder_params m) (decoder m) (graph d)
                        (edge_label_index d) (edge_label d) weight in
      Some (tt, log EvBackward
                    (set_grads (Some (match grads w with
                                      | Some g0 => grad_add g0 g
                                      | None => g
                                      end)) w))
    else None.

(** [optimizer.step()] *)
Definition step : M unit :=
  fun w =>
    match optimizer w, grads w with
    | Some o, Some g =>
        let m := model w in
        let '(st, (p, dec)) :=
          adam_step (lr o) (opt_state o) (encoder_params m) (decoder m) g in
        Some (tt, log EvStep
                      (set_optimizer (Some (mkOptimizer (p, dec) (lr o) st))
                         (set_model (mkModel p dec (training m)) w)))
    | Some _, None => Some (tt, log EvStep w)
    | None, _ => None
    end.

(** Lines 105-114. *)
Definition train (train_data : HeteroData) (weight : option tensor) : M fval :=
  bind (set_training true) (fun _ =>
  bind zero_grad (fun _ =>
  bind (Model_forward train_data) (fun '(pred, requires_grad) =>
  let target := edge_label train_data in
  bind (lift (weighted_mse_loss pred target weight)) (fun loss =>
  bind (backward requires_grad train_data weight) (fun _ =>
  bind step (fun _ =>
  ret loss)))))).

Definition clamp (lo hi : fval) (t : tensor) : tensor := map (fclamp lo hi) t.

(** Lines 117-125. *)
Definition test (data : HeteroData) : M root :=
  no_grad (
    bind (set_training false) (fun _ =>
    bind (Model_forward data) (fun '(pred, _) =>
    let pred := clamp (of_int 0) (of_int 5) pred in
    let target := to_dtype (edge_label data) in
    bind (lift (mse_loss pred target)) (fun mse =>
    ret (Sqrt mse))))).

(** Lines 129-134. *)
Definition epoch_body (train_data val_data test_data : HeteroData)
    (weight : option tensor) (epoch : nat) : M unit :=
  bind (train train_data weight) (fun loss =>
  bind (test train_data) (fun train_rmse =>
  bind (test val_data) (fun val_rmse =>
  bind (test test_data) (fun test_rmse =>
  fun w => Some (tt, put_line (mkLine epoch loss train_rmse val_rmse test_rmse) w))))).

Fixpoint for_each (l : list nat) (body : nat -> M unit) : M unit :=
  match l with
  | [] => ret tt
  | x :: l' => bind (body x) (fun _ => for_each l' body)
  end.

(** Line 128: [range(1, 301)]. *)
Definition main_loop (train_data val_data test_data : HeteroData)
    (weight : option tensor) : M unit :=
  for_each (seq 1 300) (epoch_body train_data val_data test_data weight).

End Script.

(** ** Runs of the script *)

Section Runs.

Context {B : Backend}.

(** The forward pass of the model with parameters [p] and [dec] succeeds on
    [d] with one prediction for each label, and has no shape left to
    infer. *)
Definition forward_ok (p : EncParams) (dec : EdgeDecoder) (d : HeteroData)
    (pred : tensor) : Prop :=
  materialize p (graph d) = p
  /\ exists z_dict,
       encoder p (graph d) = Some z_dict
       /\ EdgeDecoder_forward dec z_dict (edge_label_index d) = Some pred
       /\ length pred = length (edge_label d).

(** The world after a successful [test]: the model is in evaluation mode and one forward
    pass without gradient tracking is on the trace. *)
Definition after_test (w : world) : world :=
  mkWorld (mkModel (encoder_params (model w)) (decoder (model w)) false)
          (grad_enabled w) (grads w) (optimizer w) (stdout w)
          (trace w ++ [EvForward false false]).

(** The world after a successful [train] in a world whose optimizer is [o]. *)
Definition after_train (train_data : HeteroData) (weight : option tensor)
    (o : Optimizer) (w : world) : world :=
  let m := model w in
  let g := autograd (encoder_params m) (decoder m) (graph train_data)
                    (edge_label_index train_data) (edge_label train_data) weight in
  let r := adam_step (lr o) (opt_state o) (encoder_params m) (decoder m) g in
  mkWorld (mkModel (fst (snd r)) (snd (snd r)) true) true (Some g)
          (Some (mkOptimizer (snd r) (lr o) (fst r)))
          (stdout w)
          (trace w ++ [EvForward true true; EvBackward; EvStep]).

(** What one iteration of the loop does, in order. *)
Definition epoch_events (l : line) : list event :=
  [EvForward true true; EvBackward; EvStep;
   EvForward false false; EvForward false false; EvForward false false;
   EvPrint l].

(** [epochs e n w w']: [n] iterations, numbered from [e], lead from [w] to
    [w']; each one trains once, evaluates the three splits and prints the
    four numbers. *)
Inductive epochs (train_data val_data test_data : HeteroData)
    (weight : option tensor) : nat -> nat -> world -> world -> Prop :=
| epochs_done (e : nat) (w : world) :
    epochs train_data val_data test_data weight e 0 w w
| epochs_next (e n : nat) (w w1 w2 w3 w4 w' : world)
    (loss : fval) (train_rmse val_rmse test_rmse : root) :
    train train_data weight w = Some (loss, w1) ->
    test train_data w1 = Some (train_rmse, w2) ->
    test val_data w2 = Some (val_rmse, w3) ->
    test test_data w3 = Some (test_rmse, w4) ->
    epochs train_data val_data test_data weight (S e) n
      (put_line (mkLine e loss train_rmse val_rmse test_rmse) w4) w' ->
    epochs train_data val_data test_data weight e (S n) w w'.

End Runs.

(** ** The whole script (lines 43-47 and 95-134) *)

Section Whole.

Context {B : Backend}.

(** After the split: the weights are computed, the model is constructed,
    the encoder is run once, the optimizer is created and the loop runs.  An
    exception anywhere ends the script. *)
Definition script (use_weighted_loss : bool)
    (train_data val_data test_data : HeteroData) : option (unit * world) :=
  weight <- script_weight use_weighted_loss (edge_label train_data) ;;
  bind (initialize train_data)
       (fun _ => main_loop train_data val_data test_data weight) start.

End Whole.

(** ** The user features (line 25) *)

(** [torch.eye(n)] *)
Definition eye (n : nat) : matrix :=
  map (fun i => map (fun j => if (i =? j)%nat then Fin 1 else Fin 0) (seq 0 n))
      (seq 0 n).

(** ** Tensors without special values *)

(** Finite tensors are lists of rationals; the sums and means below are the
    ones of the tensor operations on them. *)
Definition finite (qs : list Q) : tensor := map Fin qs.

Definition qsum (qs : list Q) : Q := fold_left Qplus qs 0%Q.

Definition qmean (qs : list Q) : Q :=
  (qsum qs / inject_Z (Z.of_nat (length qs)))%Q.

Definition sq_error (p : Q) (t : Z) : Q :=
  ((p - inject_Z t) * (p - inject_Z t))%Q.

Definition sq_errors (ps : list Q) (ts : list Z) : list Q := map2 sq_error ps ts.

(** ** The evaluation in the words of the specification *)

(** [y] is [x] clamped to the valid rating range [0, 5] (section 4.7): a
    value below 0 becomes 0, a value above 5 becomes 5, a value in the range
    is kept; NaN is no rating and stays NaN. *)
Definition clamped_rating (x y : fval) : Prop :=
  match x with
  | NaN => y = NaN
  | NInf => y = Fin 0
  | PInf => y = Fin 5
  | Fin q =>
      ((q < 0)%Q -> y = Fin 0)
      /\ ((5 < q)%Q -> y = Fin 5)
      /\ ((0 <= q <= 5)%Q -> y = Fin q)
  end.


(** ** The link-level split (lines 33-39) *)

(** Modelled from the spec: [T.RandomLinkSplit] of torch_geometric, which
    the script calls and whose source is not part of the example.  Section
    4.2 of the specification: the edges of the target relation are
    partitioned disjointly across the splits by the given fractions, and no
    negative edge is added.  The random order in which the labelled edges
    are dealt out is the argument [perm]; the validation and the test split
    take the whole number of edges their fraction gives, and the training
    split takes the rest. *)
Definition split_count (fraction : Q) (n : nat) : nat :=
  Z.to_nat (Qfloor (fraction * inject_Z (Z.of_nat n))).

Definition RandomLinkSplit {E} (num_val num_test : Q) (perm : list E)
    : list E * list E * list E :=
  let n := length perm in
  let n_val := split_count num_val n in
  let n_test := split_count num_test n in
  let n_train := (n - n_val - n_test)%nat in
  (firstn n_train perm,
   firstn n_val (skipn n_train perm),
   skipn (n_train + n_val) perm).

(** The call of lines 33-39: [num_val=0.1], [num_test=0.1]. *)
Definition link_split {E} (perm : list E) : list E * list E * list E :=
  RandomLinkSplit (1 # 10) (1 # 10) perm.

(** ** A small backend *)

(** A backend to run the script on: the graph of a data object holds the
    latent vectors themselves, the only state of the encoder is whether its
    shapes are still to be inferred, and the optimizer counts its steps and
    leaves the parameters alone. *)
Module Toy.

Definition ones (n : nat) : tensor := repeat (Fin 1) n.
Definition zeros (n : nat) : tensor := repeat (Fin 0) n.

Definition decoder (h : nat) : EdgeDecoder :=
  mkEdgeDecoder
    (mkLinear (2 * h) h (repeat (ones (2 * h)) h) (zeros h))
    (mkLinear h 1 [ones h] (zeros 1)).

#[local] Instance backend : Backend := {
  EncParams := bool;
  Grad := unit;
  OptState := nat;
  Graph := z_dict_t;
  encoder_init := fun _ => true;
  decoder_init := decoder;
  is_lazy := fun p => p;
  materialize := fun _ _ => false;
  encoder := fun _ g => Some g;
  autograd := fun _ _ _ _ _ _ => tt;
  grad_add := fun _ _ => tt;
  adam_init := fun _ _ => O;
  adam_step := fun _ st p dec _ => (S st, (p, dec))
}.

(** One user, one movie, latent width 32; the user rated the movie 5. *)
Definition latent (x : Q) : list fval := Fin x :: zeros 31.

Definition data : HeteroData :=
  mkHeteroData
    [("user"%string, [latent 1]); ("movie"%string, [latent 0])]
    [[0]; [0]]
    [5].

(** Two users and one movie with latent width 2. *)
Definition users : matrix := [[Fin 1; Fin 2]; [Fin 0; Fin (-7)]].
Definition movies : matrix := [[Fin 1; Fin 1]].
Definition latents : z_dict_t := [("user"%string, users); ("movie"%string, movies)].

(** A second data object: the same graph, the user rated the movie 2. *)
Definition other : HeteroData :=
  mkHeteroData
    [("user"%string, [latent 1]); ("movie"%string, [latent 0])]
    [[0]; [0]]
    [2].

Definition trained : world :=
  mkWorld (mkModel false (decoder 32) true) true None
          (Some (mkOptimizer (false, decoder 32) (1 # 100) O)) [] [].

End Toy.

(** * Properties *)

(** ** Scalars *)

Lemma fmul_1_l (x : fval) : fmul (Fin 1) x = x.
Proof.
  destruct x as [[n d] | | |]; try reflexivity.
  unfold fmul, Qmult; simpl. now destruct n.
Qed.

Lemma is_nan_false_compare (a b : fval) :
  is_nan a = false -> is_nan b = false -> exists c, fcompare a b = Some c.
Proof.
  destruct a, b; simpl; intros; try discriminate; eauto.
Qed.

(** ** Lists and the option monad *)

Lemma obind_some {A C} (o : option A) (f : A -> option C) (c : C) :
  obind o f = Some c -> exists a, o = Some a /\ f a = Some c.
Proof. destruct o; simpl; [eauto | discriminate]. Qed.

Lemma mapM_length {A C} (f : A -> option C) (l : list A) (r : list C) :
  mapM f l = Some r -> length r = length l.
Proof.
  revert r; induction l as [| a l IH]; simpl; intros r H.
  - now inversion H.
  - destruct (f a); simpl in H; [| discriminate].
    destruct (mapM f l) eqn:E; simpl in H; [| discriminate].
    inversion H; subst; simpl. now rewrite (IH l0).
Qed.

Lemma mapM_nth {A C} (f : A -> option C) (l : list A) (r : list C) :
  mapM f l = Some r ->
  forall i a, nth_error l i = Some a ->
  exists c, f a = Some c /\ nth_error r i = Some c.
Proof.
  revert r; induction l as [| x l IH]; simpl; intros r H i a Hi.
  - destruct i; discriminate.
  - destruct (f x) eqn:Ex; simpl in H; [| discriminate].
    destruct (mapM f l) eqn:E; simpl in H; [| discriminate].
    inversion H; subst. destruct i as [| i]; simpl in *.
    + inversion Hi; subst. eauto.
    + eapply IH; eauto.
Qed.

Lemma mapM_total {A C} (f : A -> option C) (l : list A) :
  Forall (fun a => exists c, f a = Some c) l -> exists r, mapM f l = Some r.
Proof.
  induction 1 as [| a l [c Hc] _ [r Hr]]; simpl.
  - eauto.
  - rewrite Hc, Hr; simpl; eauto.
Qed.

Lemma map2_length {A C D} (f : A -> C -> D) (a : list A) (b : list C) :
  length a = length b -> length (map2 f a b) = length a.
Proof.
  revert b; induction a as [| x a IH]; intros [| y b]; simpl; try easy.
  intros H. now rewrite IH by lia.
Qed.

Lemma map2_nth {A C D} (f : A -> C -> D) (a : list A) (b : list C) i x y :
  nth_error a i = Some x -> nth_error b i = Some y ->
  nth_error (map2 f a b) i = Some (f x y).
Proof.
  revert b i; induction a as [| x0 a IH]; intros [| y0 b] [| i]; simpl;
    try discriminate.
  - now intros [= ->] [= ->].
  - apply IH.
Qed.

Lemma broadcast2_same (f : fval -> fval -> fval) (a b : tensor) :
  length a = length b -> broadcast2 f a b = Some (map2 f a b).
Proof.
  intros H. unfold broadcast2. now rewrite H, Nat.eqb_refl.
Qed.

Lemma norm_index_some (len : nat) (i : Z) :
  - Z.of_nat len <= i < Z.of_nat len ->
  exists n, norm_index len i = Some n /\ (n < len)%nat.
Proof.
  intros H. unfold norm_index.
  destruct (0 <=? i) eqn:E0; simpl.
  - apply Z.leb_le in E0.
    replace (i <? Z.of_nat len) with true by (symmetry; apply Z.ltb_lt; lia).
    eexists; split; [reflexivity | lia].
  - apply Z.leb_gt in E0.
    replace (- Z.of_nat len <=? i) with true by (symmetry; apply Z.leb_le; lia).
    replace (i <? 0) with true by (symmetry; apply Z.ltb_lt; lia).
    simpl. eexists; split; [reflexivity | lia].
Qed.

Lemma getitem_some {A} (t : list A) (i : Z) :
  - Z.of_nat (length t) <= i < Z.of_nat (length t) ->
  exists a, getitem t i = Some a.
Proof.
  intros H. destruct (norm_index_some _ _ H) as [n [Hn Hlt]].
  unfold getitem. rewrite Hn; simpl.
  destruct (nth_error t n) eqn:E; [eauto |].
  apply nth_error_None in E. lia.
Qed.

(** ** The loss *)

Lemma edge_terms_gather (weight : option tensor) (pred : tensor) (target : list Z) :
  length pred = length target ->
  edge_terms weight pred target =
  (ws <- mapM (label_weight weight) target ;;
   Some (map2 fmul ws (pow2 (map2 fsub pred (to_dtype target))))).
Proof.
  revert target; induction pred as [| p pred IH]; intros [| t target] H;
    simpl in *; try discriminate; [reflexivity |].
  rewrite IH by lia.
  destruct (label_weight weight t); simpl; [| reflexivity].
  destruct (mapM (label_weight weight) target); reflexivity.
Qed.

Lemma mapM_const_one (target : list Z) (v : tensor) :
  length v = length target ->
  (ws <- mapM (label_weight None) target ;; Some (map2 fmul ws v)) =
  Some (map (fmul (Fin 1)) v).
Proof.
  revert v; induction target as [| t target IH]; intros [| x v] H;
    simpl in *; try discriminate; [reflexivity |].
  specialize (IH v ltac:(lia)).
  destruct (mapM (label_weight None) target); simpl in *; [| discriminate].
  now inversion IH.
Qed.

Lemma sub_length (pred : tensor) (target : list Z) :
  length pred = length target ->
  length (pow2 (map2 fsub pred (to_dtype target))) = length target.
Proof.
  intros H. unfold pow2, to_dtype.
  rewrite length_map, map2_length; rewrite ?length_map; lia.
Qed.

Lemma weighted_mse_loss_per_edge (pred : tensor) (target : list Z)
    (weight : option tensor) :
  length pred = length target ->
  weighted_mse_loss pred target weight = mean_weighted_sq_error weight pred target.
Proof.
  intros H. unfold weighted_mse_loss, mean_weighted_sq_error.
  rewrite edge_terms_gather by exact H.
  rewrite broadcast2_same by (unfold to_dtype; now rewrite length_map).
  pose proof (sub_length pred target H) as Hd.
  destruct weight as [wt |]; simpl.
  - unfold index_tensor.
    change (mapM (label_weight (Some wt)) target) with (mapM (getitem wt) target).
    destruct (mapM (getitem wt) target) as [ws |] eqn:E; simpl; [| reflexivity].
    rewrite broadcast2_same; [reflexivity |].
    apply mapM_length in E. lia.
  - rewrite mapM_const_one by exact Hd. reflexivity.
Qed.

Lemma weighted_mse_loss_default (pred : tensor) (target : list Z) :
  weighted_mse_loss pred target None = mse_loss pred (to_dtype target).
Proof.
  unfold weighted_mse_loss, mse_loss; simpl.
  destruct (broadcast2 fsub pred (to_dtype target)) as [d |]; simpl; [| reflexivity].
  rewrite (map_ext _ (fun x => x)) by apply fmul_1_l.
  now rewrite map_id.
Qed.

Lemma weighted_mse_loss_total (pred : tensor) (target : list Z)
    (weight : option tensor) :
  length pred = length target ->
  (forall wt, weight = Some wt ->
     Forall (fun t => - Z.of_nat (length wt) <= t < Z.of_nat (length wt)) target) ->
  exists v, weighted_mse_loss pred target weight = Some v.
Proof.
  intros H Hidx. unfold weighted_mse_loss.
  rewrite broadcast2_same by (unfold to_dtype; now rewrite length_map).
  pose proof (sub_length pred target H) as Hd.
  destruct weight as [wt |]; simpl; [| eauto].
  unfold index_tensor.
  destruct (mapM_total (getitem wt) target) as [ws Hws].
  { eapply Forall_impl; [| apply (Hidx wt eq_refl)].
    intros t Ht. now apply getitem_some. }
  rewrite Hws; simpl.
  rewrite broadcast2_same by (apply mapM_length in Hws; lia).
  simpl; eauto.
Qed.

(** C1. For a prediction vector and an integer target vector of the same
    length and an optional weight vector, [weighted_mse_loss] is the mean
    over the edges of weight[target] * (pred - target)^2, the weight being 1
    for every label when no weight vector is given; it returns a value
    whenever every label indexes the weight vector; and without a weight
    vector it is the plain mean squared error of pred against target, for
    any pred/target pair. *)
Theorem weighted_mse_loss_is_weighted_mean (pred : tensor) (target : list Z)
    (weight : option tensor) (Hlen : length pred = length target) :
  weighted_mse_loss pred target weight = mean_weighted_sq_error weight pred target
  /\ ((forall wt, weight = Some wt ->
        Forall (fun t => - Z.of_nat (length wt) <= t < Z.of_nat (length wt)) target) ->
      exists v, weighted_mse_loss pred target weight = Some v)
  /\ (forall (p : tensor) (t : list Z),
        weighted_mse_loss p t None = mse_loss p (to_dtype t)).
Proof.
  split; [| split].
  - now apply weighted_mse_loss_per_edge.
  - now apply weighted_mse_loss_total.
  - apply weighted_mse_loss_default.
Qed.

Lemma weighted_mse_loss_is_weighted_mean_witness :
  length [Fin 6; Fin (1 # 2)] = length [3; 1]
  /\ weighted_mse_loss [Fin 6; Fin (1 # 2)] [3; 1]
       (Some [PInf; Fin 3; PInf; Fin 1; Fin (3 # 2)])
     = mean_weighted_sq_error (Some [PInf; Fin 3; PInf; Fin 1; Fin (3 # 2)])
         [Fin 6; Fin (1 # 2)] [3; 1]
  /\ weighted_mse_loss [Fin 6; Fin (1 # 2)] [3; 1]
       (Some [PInf; Fin 3; PInf; Fin 1; Fin (3 # 2)])
     = Some (Fin (39 # 8)).
Proof.
  split; [reflexivity |].
  split; [| vm_compute; reflexivity].
  apply (weighted_mse_loss_is_weighted_mean
           [Fin 6; Fin (1 # 2)] [3; 1]
           (Some [PInf; Fin 3; PInf; Fin 1; Fin (3 # 2)]) eq_refl).
Defined.

(** ** The label weights *)

Lemma fold_left_max_spec (l : list Z) (x : Z) :
  (fold_left Z.max l x = x \/ In (fold_left Z.max l x) l)
  /\ x <= fold_left Z.max l x
  /\ Forall (fun y => y <= fold_left Z.max l x) l.
Proof.
  revert x; induction l as [| y l IH]; intros x; simpl.
  - repeat split; [now left | lia | constructor].
  - destruct (IH (Z.max x y)) as [Hin [Hle Hall]].
    repeat split.
    + destruct Hin as [Heq | Hin]; [| now right; right].
      rewrite Heq. destruct (Z.max_spec x y) as [[_ ->] | [_ ->]]; auto.
    + lia.
    + constructor; [lia | exact Hall].
Qed.

Lemma tensor_max_spec (t : list Z) (m : Z) :
  tensor_max t = Some m -> In m t /\ Forall (fun y => y <= m) t.
Proof.
  destruct t as [| x t]; simpl; [discriminate |].
  intros [= <-]. destruct (fold_left_max_spec t x) as [Hin [Hle Hall]].
  split.
  - destruct Hin as [-> | Hin]; auto.
  - constructor; assumption.
Qed.

Lemma nth_error_seq_from (s n i : nat) :
  (i < n)%nat -> nth_error (seq s n) i = Some (s + i)%nat.
Proof.
  revert s i; induction n as [| n IH]; intros s [| i] H; simpl; try lia.
  - now rewrite Nat.add_0_r.
  - rewrite IH by lia. f_equal; lia.
Qed.

Lemma nth_error_bins {A} (f : nat -> A) (n i : nat) :
  (i < n)%nat -> nth_error (map f (seq 0 n)) i = Some (f i).
Proof.
  intros H. now rewrite nth_error_map, nth_error_seq_from.
Qed.

Lemma count_nonneg (v : Z) (l : list Z) : 0 <= count v l.
Proof. unfold count; lia. Qed.

Lemma count_absent (v : Z) (l : list Z) : ~ In v l -> count v l = 0.
Proof.
  intros H. unfold count.
  now rewrite (proj1 (count_occ_not_In Z.eq_dec l v) H).
Qed.

Lemma count_present (v : Z) (l : list Z) : In v l -> 0 < count v l.
Proof.
  intros H. unfold count.
  apply (count_occ_In Z.eq_dec) in H. lia.
Qed.

Lemma existsb_neg_false (l : list Z) :
  existsb (fun v => v <? 0) l = false <-> Forall (fun v => 0 <= v) l.
Proof.
  induction l as [| x l IH]; simpl.
  - split; [constructor | reflexivity].
  - rewrite orb_false_iff, IH, Z.ltb_ge. split.
    + intros [H1 H2]; now constructor.
    + intros H; inversion H; subst; now split.
Qed.

(** The bins of a non-empty vector of non-negative labels. *)
Lemma bincount_bins (labels : list Z) (counts : list Z) :
  bincount labels = Some counts -> counts <> [] ->
  exists m, tensor_max labels = Some m /\ 0 <= m
    /\ Forall (fun v => 0 <= v <= m) labels
    /\ counts = map (fun v => count (Z.of_nat v) labels) (seq 0 (S (Z.to_nat m))).
Proof.
  unfold bincount. intros H Hne.
  destruct (existsb (fun v => v <? 0) labels) eqn:E; [discriminate |].
  apply existsb_neg_false in E.
  destruct (tensor_max labels) as [m |] eqn:Em.
  - inversion H; subst; clear H. exists m.
    destruct (tensor_max_spec _ _ Em) as [Hin Hall].
    assert (0 <= m) by (rewrite Forall_forall in E; now apply E).
    repeat split; auto.
    rewrite Forall_forall in *. intros v Hv. split; auto.
  - inversion H; subst. now contradiction Hne.
Qed.

Lemma bincount_nth (labels counts : list Z) (i : nat) (c : Z) :
  bincount labels = Some counts ->
  nth_error counts i = Some c -> c = count (Z.of_nat i) labels.
Proof.
  intros H Hi.
  assert (Hne : counts <> []) by (intros ->; destruct i; discriminate).
  destruct (bincount_bins _ _ H Hne) as [m [_ [_ [_ ->]]]].
  assert (Hlt : (i < S (Z.to_nat m))%nat).
  { assert (Hs : nth_error (map (fun v => count (Z.of_nat v) labels)
                               (seq 0 (S (Z.to_nat m)))) i <> None)
      by (rewrite Hi; discriminate).
    apply nth_error_Some in Hs. now rewrite length_map, length_seq in Hs. }
  rewrite nth_error_bins in Hi by exact Hlt. now inversion Hi.
Qed.

Lemma bincount_total (labels : list Z) :
  Forall (fun v => 0 <= v) labels -> exists counts, bincount labels = Some counts.
Proof.
  intros H. unfold bincount.
  rewrite (proj2 (existsb_neg_false labels) H).
  destruct (tensor_max labels); eauto.
Qed.

(** Division of the largest count by a count. *)
Lemma fdiv_by_zero_count (M : Z) :
  0 < M -> fdiv (of_int M) (of_int 0) = PInf.
Proof.
  intros H. unfold fdiv, of_int.
  change (Qeq_bool (inject_Z 0) 0) with true. cbv iota. unfold scale_inf.
  replace (0 ?= inject_Z M)%Q with Lt; [reflexivity |].
  symmetry. apply (proj1 (Qlt_alt _ _)). change 0%Q with (inject_Z 0). now rewrite <- Zlt_Qlt.
Qed.

Lemma fdiv_by_count (M c : Z) :
  0 < c -> fdiv (of_int M) (of_int c) = Fin (inject_Z M / inject_Z c).
Proof.
  intros H. unfold fdiv, of_int.
  destruct (Qeq_bool (inject_Z c) 0) eqn:E; [| reflexivity].
  apply Qeq_bool_iff in E. change 0%Q with (inject_Z 0) in E.
  rewrite inject_Z_injective in E. lia.
Qed.

Lemma inverse_frequency_weight_eq (labels counts : list Z) (M : Z) :
  bincount labels = Some counts -> tensor_max counts = Some M ->
  inverse_frequency_weight labels = Some (int_true_divide M counts).
Proof.
  intros H1 H2. unfold inverse_frequency_weight. rewrite H1; simpl.
  now rewrite H2.
Qed.

(** The largest count of a non-empty label vector is positive. *)
Lemma max_count_positive (labels counts : list Z) :
  bincount labels = Some counts -> counts <> [] ->
  exists M, tensor_max counts = Some M /\ 0 < M
    /\ Forall (fun c => 0 <= c <= M) counts.
Proof.
  intros H Hne.
  destruct (bincount_bins _ _ H Hne) as [m [Hm [Hm0 [Hall Hc]]]].
  destruct (tensor_max counts) as [M |] eqn:EM;
    [| destruct counts; [now contradiction Hne | discriminate]].
  exists M. destruct (tensor_max_spec _ _ EM) as [HinM HallM].
  assert (Hpos : forall c, In c counts -> 0 <= c).
  { intros c Hin. subst counts. apply in_map_iff in Hin.
    destruct Hin as [v [<- _]]. apply count_nonneg. }
  split; [reflexivity |]. split.
  - destruct (tensor_max_spec _ _ Hm) as [Hin _].
    assert (Hbin : nth_error counts (Z.to_nat m) = Some (count m labels)).
    { subst counts. rewrite nth_error_bins by lia. now rewrite Z2Nat.id. }
    apply nth_error_In in Hbin.
    rewrite Forall_forall in HallM. specialize (HallM _ Hbin).
    pose proof (count_present _ _ Hin). lia.
  - rewrite Forall_forall in *. intros c Hin. split; auto.
Qed.

Lemma bincount_nonempty (labels counts : list Z) (m : Z) :
  In m labels -> bincount labels = Some counts -> counts <> [].
Proof.
  unfold bincount. intros Hin H.
  destruct (existsb (fun v => v <? 0) labels); [discriminate |].
  destruct labels as [| x t]; [contradiction |].
  simpl in H. inversion H; subst. discriminate.
Qed.

(** C2. The weighted branch divides the largest count by every count of
    the bincount of the training labels, with no guard: when a value [v]
    between 0 and a label that occurs does not occur itself, its count is 0
    and the weight of [v] is the quotient of a division by zero (the
    positive largest count over 0, which is +inf). *)
Theorem weight_divides_by_zero (labels : list Z) (m v : Z)
    (Hnn : Forall (fun x => 0 <= x) labels)
    (Hm : In m labels) (Hv : 0 <= v <= m) (Habsent : ~ In v labels) :
  exists counts M w,
    bincount labels = Some counts
    /\ tensor_max counts = Some M
    /\ nth_error counts (Z.to_nat v) = Some 0
    /\ inverse_frequency_weight labels = Some w
    /\ nth_error w (Z.to_nat v) = Some (fdiv (of_int M) (of_int 0))
    /\ fdiv (of_int M) (of_int 0) = PInf.
Proof.
  destruct (bincount_total labels Hnn) as [counts Hc].
  pose proof (bincount_nonempty _ _ _ Hm Hc) as Hne.
  destruct (max_count_positive _ _ Hc Hne) as [M [HM [Hpos _]]].
  destruct (bincount_bins _ _ Hc Hne) as [mx [_ [_ [Hall Heq]]]].
  assert (Hbin : nth_error counts (Z.to_nat v) = Some 0).
  { rewrite Forall_forall in Hall. specialize (Hall _ Hm).
    rewrite Heq, nth_error_bins by lia.
    rewrite Z2Nat.id by lia. now rewrite count_absent. }
  exists counts, M, (int_true_divide M counts).
  repeat split; auto.
  - now apply inverse_frequency_weight_eq.
  - unfold int_true_divide. now rewrite nth_error_map, Hbin.
  - now apply fdiv_by_zero_count.
Qed.

Lemma weight_divides_by_zero_witness :
  (Forall (fun x => 0 <= x) [3; 3; 4; 1; 3; 4] /\ In 4 [3; 3; 4; 1; 3; 4]
   /\ 0 <= 2 <= 4 /\ ~ In 2 [3; 3; 4; 1; 3; 4])
  /\ exists counts M w,
       bincount [3; 3; 4; 1; 3; 4] = Some counts
       /\ tensor_max counts = Some M
       /\ nth_error counts (Z.to_nat 2) = Some 0
       /\ inverse_frequency_weight [3; 3; 4; 1; 3; 4] = Some w
       /\ nth_error w (Z.to_nat 2) = Some (fdiv (of_int M) (of_int 0))
       /\ fdiv (of_int M) (of_int 0) = PInf.
Proof.
  assert (Hnn : Forall (fun x => 0 <= x) [3; 3; 4; 1; 3; 4])
    by (repeat constructor; lia).
  assert (Hm : In 4 [3; 3; 4; 1; 3; 4]) by (simpl; auto).
  assert (Hv : 0 <= 2 <= 4) by lia.
  assert (Habsent : ~ In 2 [3; 3; 4; 1; 3; 4])
    by (simpl; intros H; repeat destruct H as [H | H]; try discriminate; exact H).
  split; [exact (conj Hnn (conj Hm (conj Hv Habsent))) |].
  exact (weight_divides_by_zero [3; 3; 4; 1; 3; 4] 4 2 Hnn Hm Hv Habsent).
Defined.

(** ** Rounding to float32 *)

Lemma rne_floor (x : Q) : Qfloor x <= rne x <= Qfloor x + 1.
Proof.
  unfold rne. destruct (x - inject_Z (Qfloor x) ?= 1 # 2)%Q;
    try destruct (Z.even (Qfloor x)); lia.
Qed.

Lemma rne_integer (x : Q) (k : Z) : (x == inject_Z k)%Q -> rne x = k.
Proof.
  intros H. unfold rne.
  assert (E : Qfloor x = k) by (rewrite (Qfloor_comp _ _ H); apply Qfloor_Z).
  rewrite E.
  replace (x - inject_Z k ?= 1 # 2)%Q with Lt; [reflexivity |].
  symmetry. apply (proj1 (Qlt_alt _ _)). lra.
Qed.

Lemma rne_at_least (x : Q) (k : Z) : (inject_Z k <= x)%Q -> k <= rne x.
Proof.
  intros H. apply Qfloor_resp_le in H. rewrite Qfloor_Z in H.
  pose proof (rne_floor x). lia.
Qed.

Lemma rne_above_half (x : Q) (k : Z) :
  (inject_Z k + (1 # 2) < x)%Q -> k + 1 <= rne x.
Proof.
  intros H.
  assert (Hk : k <= Qfloor x).
  { assert (H' : (inject_Z k <= x)%Q) by lra.
    apply Qfloor_resp_le in H'. now rewrite Qfloor_Z in H'. }
  destruct (Z.eq_dec (Qfloor x) k) as [E | E].
  - unfold rne. rewrite E.
    replace (x - inject_Z k ?= 1 # 2)%Q with Gt; [lia |].
    symmetry. apply (proj1 (Qgt_alt _ _)). lra.
  - pose proof (rne_floor x). lia.
Qed.

Lemma pow2_pos (k : Z) : (0 < 2 ^ k)%Q.
Proof. apply Qpower_0_lt. reflexivity. Qed.

Lemma pow2_inject (k : Z) : 0 <= k -> (inject_Z (2 ^ k) == 2 ^ k)%Q.
Proof. intros H. now rewrite Zpower_Qpower. Qed.

Lemma pow2_succ (k : Z) : (2 ^ (k + 1) == 2 * 2 ^ k)%Q.
Proof.
  rewrite Qpower_plus by discriminate. change (2 ^ 1)%Q with 2%Q. ring.
Qed.

(** The exponent bounds the rational it is computed from. *)
Lemma ilog2_spec (q : Q) :
  (0 < q)%Q -> (2 ^ ilog2 q <= q < 2 ^ (ilog2 q + 1))%Q.
Proof.
  intros Hq. destruct q as [n d].
  assert (Hn : 0 < n).
  { unfold Qlt in Hq; simpl in Hq. lia. }
  unfold ilog2. cbn [Qnum Qden].
  set (a := Z.log2 n). set (b := Z.log2 (Zpos d)).
  destruct (Z.log2_spec n Hn) as [Ha1 Ha2]. fold a in Ha1, Ha2.
  destruct (Z.log2_spec (Zpos d) ltac:(lia)) as [Hb1 Hb2]. fold b in Hb1, Hb2.
  pose proof (Z.log2_nonneg n) as Ha0. fold a in Ha0.
  pose proof (Z.log2_nonneg (Zpos d)) as Hb0. fold b in Hb0.
  assert (Hq' : (n # d == inject_Z n / inject_Z (Zpos d))%Q) by apply Qmake_Qdiv.
  assert (Hd : (0 < inject_Z (Zpos d))%Q) by reflexivity.
  (* below 2^(a-b+1) and at least 2^(a-b-1) *)
  assert (Hup : (n # d < 2 ^ (a - b + 1))%Q).
  { rewrite Hq'. apply Qlt_shift_div_r; [exact Hd |].
    replace (a - b + 1) with ((a + 1) - b) by lia.
    rewrite Qpower_minus by discriminate.
    rewrite <- !pow2_inject by lia.
    assert (Hb : (0 < inject_Z (2 ^ b))%Q).
    { change 0%Q with (inject_Z 0). rewrite <- Zlt_Qlt. lia. }
    unfold Qdiv. rewrite <- Qmult_assoc, (Qmult_comm (/ _)), Qmult_assoc.
    apply Qlt_shift_div_l; [exact Hb |].
    rewrite <- !inject_Z_mult, <- Zlt_Qlt.
    change (Z.succ a) with (a + 1) in Ha2. nia. }
  assert (Hlo : (2 ^ (a - b - 1) <= n # d)%Q).
  { rewrite Hq'. apply Qle_shift_div_l; [exact Hd |].
    replace (a - b - 1) with (a - (b + 1)) by lia.
    rewrite Qpower_minus by discriminate.
    rewrite <- !pow2_inject by lia.
    assert (Hb : (0 < inject_Z (2 ^ (b + 1)))%Q).
    { change 0%Q with (inject_Z 0). rewrite <- Zlt_Qlt. lia. }
    unfold Qdiv. rewrite <- Qmult_assoc, (Qmult_comm (/ _)), Qmult_assoc.
    apply Qle_shift_div_r; [exact Hb |].
    rewrite <- !inject_Z_mult, <- Zle_Qle.
    change (Z.succ b) with (b + 1) in Hb2. nia. }
  destruct (Qle_bool (2 ^ (a - b)) (n # d)) eqn:E.
  - apply Qle_bool_iff in E. split; assumption.
  - assert (Hlt : (n # d < 2 ^ (a - b))%Q).
    { apply Qnot_le_lt. intros H. apply Qle_bool_iff in H. congruence. }
    replace (a - b - 1 + 1) with (a - b) by lia. split; assumption.
Qed.

Lemma ilog2_unique (q : Q) (k : Z) :
  (2 ^ k <= q < 2 ^ (k + 1))%Q -> ilog2 q = k.
Proof.
  intros [H1 H2].
  assert (Hq : (0 < q)%Q) by (pose proof (pow2_pos k); lra).
  destruct (ilog2_spec q Hq) as [H3 H4].
  assert (k < ilog2 q + 1).
  { apply (Qpower_lt_compat_l_inv 2); [lra | reflexivity]. }
  assert (ilog2 q < k + 1).
  { apply (Qpower_lt_compat_l_inv 2); [lra | reflexivity]. }
  lia.
Qed.

Lemma round32_comp (p q : Q) : (p == q)%Q -> round32 p = round32 q.
Proof.
  intros H. unfold round32.
  assert (E : (0 ?= p)%Q = (0 ?= q)%Q) by now rewrite H.
  rewrite E, (Qred_complete p q H).
  assert (H' : (- p == - q)%Q) by now rewrite H.
  now rewrite (Qred_complete _ _ H').
Qed.

Lemma round32_pos (q : Q) : (0 < q)%Q -> round32 q = round_pos (Qred q).
Proof.
  intros H. unfold round32.
  now rewrite (proj1 (Qlt_alt _ _) H).
Qed.

Lemma fltb_one_of_value (v : Q) :
  (1 < v)%Q ->
  fltb (Fin 1) (if Qle_bool (2 ^ 128) v then PInf else Fin (Qred v)) = true.
Proof.
  intros H. destruct (Qle_bool (2 ^ 128) v); [reflexivity |].
  unfold fltb, fcompare.
  replace (1 ?= Qred v)%Q with Lt; [reflexivity |].
  symmetry. apply (proj1 (Qlt_alt _ _)). now rewrite Qred_correct.
Qed.

(** A quotient above 1 + 2^-24, the midpoint of 1 and the next float32,
    rounds to a float32 above 1. *)
Lemma round32_above_one (q : Q) :
  (1 + (1 # 16777216) < q)%Q -> fltb (Fin 1) (round32 q) = true.
Proof.
  intros Hq.
  assert (Hpos : (0 < q)%Q) by lra.
  rewrite (round32_pos q Hpos).
  assert (Hr : (Qred q == q)%Q) by apply Qred_correct.
  set (r := Qred q) in *.
  assert (Hrpos : (0 < r)%Q) by lra.
  destruct (ilog2_spec r Hrpos) as [H1 H2].
  unfold round_pos. set (e := ilog2 r) in *.
  assert (He : 0 <= e).
  { assert (0 < e + 1); [| lia].
    apply (Qpower_lt_compat_l_inv 2); [| reflexivity].
    change (2 ^ 0)%Q with 1%Q. lra. }
  rewrite Z.max_l by lia.
  pose proof (pow2_pos (e - 23)) as Hulp.
  set (ulp := (2 ^ (e - 23))%Q) in *.
  assert (Hscale : (inject_Z 8388608 * ulp == 2 ^ e)%Q).
  { unfold ulp. change (inject_Z 8388608) with (2 ^ 23)%Q.
    rewrite <- Qpower_plus by discriminate. now replace (23 + (e - 23)) with e by lia. }
  apply fltb_one_of_value.
  destruct (Z.eq_dec e 0) as [E0 | E0].
  - assert (Hu : (ulp == 1 # 8388608)%Q) by (unfold ulp; now rewrite E0).
    assert (Hm : 8388608 + 1 <= rne (r / ulp)).
    { apply rne_above_half. apply Qlt_shift_div_l; [exact Hulp |].
      rewrite Hu. change (inject_Z 8388608) with (8388608 # 1)%Q. lra. }
    rewrite Zle_Qle in Hm.
    assert (Hv : (inject_Z (8388608 + 1) * ulp <= inject_Z (rne (r / ulp)) * ulp)%Q)
      by (apply Qmult_le_compat_r; lra).
    rewrite Hu in Hv at 1.
    change (inject_Z (8388608 + 1)) with (8388609 # 1)%Q in Hv. lra.
  - assert (Hm : 8388608 <= rne (r / ulp)).
    { apply rne_at_least. apply Qle_shift_div_l; [exact Hulp |].
      rewrite Hscale. exact H1. }
    rewrite Zle_Qle in Hm.
    assert (Hv : (inject_Z 8388608 * ulp <= inject_Z (rne (r / ulp)) * ulp)%Q)
      by (apply Qmult_le_compat_r; lra).
    rewrite Hscale in Hv.
    assert (H2e : (2 ^ 1 <= 2 ^ e)%Q)
      by (apply Qpower_le_compat_l; [lia | discriminate]).
    change (2 ^ 1)%Q with 2%Q in H2e. lra.
Qed.

(** The integers up to 2^24 are float32 values: the cast is exact. *)
Lemma f32_of_int_exact (c : Z) :
  0 <= c <= 2 ^ 24 -> f32_of_int c = Fin (inject_Z c).
Proof.
  intros [H0 H24].
  destruct (Z.eq_dec c 0) as [-> | Hc0]; [reflexivity |].
  destruct (Z.eq_dec c (2 ^ 24)) as [-> | Hc24]; [vm_compute; reflexivity |].
  assert (Hc : 0 < c < 2 ^ 24) by lia. clear H0 H24 Hc0 Hc24.
  assert (Hq : (0 < inject_Z c)%Q)
    by (change 0%Q with (inject_Z 0); rewrite <- Zlt_Qlt; lia).
  unfold f32_of_int. rewrite (round32_pos _ Hq).
  assert (Hred : Qred (inject_Z c) = inject_Z c).
  { apply Qcanon.Qred_identity. simpl. apply Z.gcd_1_r. }
  rewrite Hred. unfold round_pos.
  destruct (Z.log2_spec c ltac:(lia)) as [Ha1 Ha2].
  pose proof (Z.log2_nonneg c) as Ha0.
  assert (Ha : Z.log2 c < 24) by (apply Z.log2_lt_pow2; lia).
  set (a := Z.log2 c) in *.
  assert (He : ilog2 (inject_Z c) = a).
  { apply ilog2_unique. rewrite <- !pow2_inject by lia.
    rewrite <- Zle_Qle, <- Zlt_Qlt. change (Z.succ a) with (a + 1) in Ha2. lia. }
  rewrite He, Z.max_l by lia.
  set (s := 23 - a).
  assert (Hs : 0 <= s) by (unfold s; lia).
  assert (Hulp : (2 ^ (a - 23) == / inject_Z (2 ^ s))%Q).
  { replace (a - 23) with (- s) by (unfold s; lia).
    now rewrite Qpower_opp, pow2_inject. }
  assert (Hsp : (0 < inject_Z (2 ^ s))%Q).
  { change 0%Q with (inject_Z 0). rewrite <- Zlt_Qlt. lia. }
  assert (Hm : rne (inject_Z c / 2 ^ (a - 23)) = c * 2 ^ s).
  { apply rne_integer. rewrite Hulp, inject_Z_mult. field. lra. }
  rewrite Hm.
  assert (Hv : (inject_Z (c * 2 ^ s) * 2 ^ (a - 23) == inject_Z c)%Q).
  { rewrite Hulp, inject_Z_mult. field. lra. }
  destruct (Qle_bool (2 ^ 128) (inject_Z (c * 2 ^ s) * 2 ^ (a - 23))) eqn:E.
  - apply Qle_bool_iff in E. rewrite Hv in E.
    rewrite <- (pow2_inject 128) in E by lia. rewrite <- Zle_Qle in E.
    assert (2 ^ 24 < 2 ^ 128) by reflexivity. lia.
  - now rewrite (Qred_complete _ _ Hv), Hred.
Qed.

Lemma fdiv32_counts (M c : Z) :
  0 < M <= 2 ^ 24 -> 0 <= c <= M ->
  let x := fdiv32 (f32_of_int M) (f32_of_int c) in
  (c = M -> x = Fin 1) /\ (c < M -> fltb (Fin 1) x = true).
Proof.
  intros HM Hc x. unfold x.
  rewrite !f32_of_int_exact by lia. unfold fdiv32. split.
  - intros ->. change (Fin (inject_Z M)) with (of_int M).
    rewrite fdiv_by_count by lia. cbn [round_fval].
    rewrite (round32_comp _ 1); [reflexivity |].
    apply Qmult_inv_r. change 0%Q with (inject_Z 0).
    rewrite inject_Z_injective. lia.
  - intros Hlt. change (Fin (inject_Z M)) with (of_int M).
    change (Fin (inject_Z c)) with (of_int c).
    destruct (Z.eq_dec c 0) as [-> | Hc0].
    + now rewrite fdiv_by_zero_count by lia.
    + rewrite fdiv_by_count by lia. cbn [round_fval].
      apply round32_above_one.
      assert (Hcq : (0 < inject_Z c)%Q)
        by (change 0%Q with (inject_Z 0); rewrite <- Zlt_Qlt; lia).
      apply Qlt_shift_div_l; [exact Hcq |].
      assert (H1 : (inject_Z c + 1 <= inject_Z M)%Q).
      { change 1%Q with (inject_Z 1). rewrite <- inject_Z_plus, <- Zle_Qle. lia. }
      assert (H2 : (inject_Z c < 16777216)%Q).
      { change 16777216%Q with (inject_Z (2 ^ 24)). rewrite <- Zlt_Qlt. lia. }
      lra.
Qed.

Lemma iter_cons_repeat {A} (x : A) (l : list A) (p : positive) :
  Pos.iter (cons x) l p = repeat x (Pos.to_nat p) ++ l.
Proof.
  induction p as [| p IH] using Pos.peano_ind.
  - reflexivity.
  - rewrite Pos.iter_succ, IH, Pos2Nat.inj_succ. reflexivity.
Qed.

Lemma two_bins_repeat (a b : positive) :
  two_bins a b = repeat 0 (Pos.to_nat a) ++ repeat 1 (Pos.to_nat b).
Proof.
  unfold two_bins. now rewrite !iter_cons_repeat, app_nil_r.
Qed.

Lemma two_bins_bincount (a b : positive) :
  bincount (two_bins a b) = Some [Zpos a; Zpos b].
Proof.
  rewrite two_bins_repeat.
  set (na := Pos.to_nat a). set (nb := Pos.to_nat b).
  set (l := repeat 0 na ++ repeat 1 nb).
  assert (Hvals : forall x, In x l -> x = 0 \/ x = 1).
  { intros x Hx. apply in_app_or in Hx.
    destruct Hx as [Hx | Hx]; apply repeat_spec in Hx; auto. }
  assert (H1 : In 1 l).
  { apply in_or_app. right. unfold nb.
    destruct (Pos2Nat.is_succ b) as [n ->]. now left. }
  unfold bincount.
  assert (Hnn : existsb (fun v => v <? 0) l = false).
  { apply existsb_neg_false, Forall_forall. intros x Hx.
    destruct (Hvals x Hx); lia. }
  rewrite Hnn.
  destruct (tensor_max l) as [m |] eqn:Em.
  - destruct (tensor_max_spec _ _ Em) as [Hin Hall].
    rewrite Forall_forall in Hall. specialize (Hall 1 H1).
    assert (m = 1) by (destruct (Hvals m Hin); lia). subst m.
    change (seq 0 (S (Z.to_nat 1))) with [0%nat; 1%nat]. cbn [map].
    unfold count, l. rewrite !count_occ_app.
    change (Z.of_nat 0) with 0. change (Z.of_nat 1) with 1.
    rewrite (@count_occ_repeat_eq Z Z.eq_dec 0 0 na eq_refl).
    rewrite (@count_occ_repeat_neq Z Z.eq_dec 0 1 nb) by discriminate.
    rewrite (@count_occ_repeat_neq Z Z.eq_dec 1 0 na) by discriminate.
    rewrite (@count_occ_repeat_eq Z Z.eq_dec 1 1 nb eq_refl).
    unfold na, nb. rewrite Nat.add_0_r, Nat.add_0_l, !positive_nat_Z.
    reflexivity.
  - destruct l; [contradiction | discriminate].
Qed.


Lemma inverse_frequency_weight_f32_eq (labels counts : list Z) (M : Z) :
  bincount labels = Some counts -> tensor_max counts = Some M ->
  inverse_frequency_weight_f32 labels = Some (int_true_divide_f32 M counts).
Proof.
  intros H1 H2. unfold inverse_frequency_weight_f32. rewrite H1; cbn [obind].
  now rewrite H2.
Qed.

(** The rounding of [round32] is the one of the standard library's model of
    IEEE 754 arithmetic, at the casts and quotients used below. *)
Lemma round32_agrees_with_spec_float :
  of_spec_float (binary_normalize 24 128 16777217 0 false) = f32_of_int 16777217
  /\ of_spec_float (binary_normalize 24 128 16777219 0 false) = f32_of_int 16777219
  /\ of_spec_float (SFdiv 24 128 (binary_normalize 24 128 16777217 0 false)
                                (binary_normalize 24 128 16777216 0 false))
     = fdiv32 (f32_of_int 16777217) (f32_of_int 16777216)
  /\ of_spec_float (SFdiv 24 128 (binary_normalize 24 128 16777216 0 false)
                                (binary_normalize 24 128 16777215 0 false))
     = fdiv32 (f32_of_int 16777216) (f32_of_int 16777215)
  /\ of_spec_float (SFdiv 24 128 (binary_normalize 24 128 3 0 false)
                                (binary_normalize 24 128 2 0 false))
     = fdiv32 (f32_of_int 3) (f32_of_int 2)
  /\ of_spec_float (SFdiv 24 128 (binary_normalize 24 128 10 0 false)
                                (binary_normalize 24 128 3 0 false))
     = fdiv32 (f32_of_int 10) (f32_of_int 3)
  /\ of_spec_float (SFdiv 24 128 (binary_normalize 24 128 3 0 false)
                                (binary_normalize 24 128 0 0 false))
     = fdiv32 (f32_of_int 3) (f32_of_int 0).
Proof. repeat split; vm_compute; reflexivity. Qed.

(** C3, as the specification states it, fails: line 45 divides in float32.
    With 16777217 = 2^24 + 1 labels 0 and 16777216 labels 1 the cast rounds
    the larger count to 2^24, both weights are exactly 1, and the strictly
    less frequent bin does not get a weight above 1. *)
Lemma float32_rarer_bin_weight_one :
  bincount (two_bins 16777217 16777216) = Some [16777217; 16777216]
  /\ inverse_frequency_weight_f32 (two_bins 16777217 16777216)
     = Some [Fin 1; Fin 1]
  /\ ~ (forall labels counts,
          bincount labels = Some counts ->
          Exists (fun c => c <> 0) counts ->
          exists M w,
            tensor_max counts = Some M
            /\ inverse_frequency_weight_f32 labels = Some w
            /\ forall i c, nth_error counts i = Some c ->
                 exists x, nth_error w i = Some x
                   /\ (c = M -> feqb x (Fin 1) = true)
                   /\ (c < M -> fltb (Fin 1) x = true)).
Proof.
  pose proof (two_bins_bincount 16777217 16777216) as Hb.
  assert (Hw : inverse_frequency_weight_f32 (two_bins 16777217 16777216)
               = Some [Fin 1; Fin 1]).
  { rewrite (inverse_frequency_weight_f32_eq _ _ 16777217 Hb eq_refl).
    vm_compute. reflexivity. }
  split; [exact Hb |]. split; [exact Hw |].
  intros H.
  destruct (H (two_bins 16777217 16777216) [16777217; 16777216] Hb)
    as [M [w [HM [Hw' Hall]]]].
  { apply Exists_cons_hd. discriminate. }
  assert (M = 16777217) by (vm_compute in HM; congruence). subst M.
  assert (w = [Fin 1; Fin 1]) by congruence. subst w.
  destruct (Hall 1%nat 16777216 eq_refl) as [x [Hx [_ Hlt]]].
  assert (x = Fin 1) by (cbn [nth_error] in Hx; congruence). subst x.
  specialize (Hlt ltac:(lia)). discriminate Hlt.
Qed.

(** C3, amended. For a label vector whose bincount has a non-zero bin and
    no bin above 2^24 = 16777216 (the counts that float32 holds exactly),
    the weight vector of line 45, computed in float32, has one weight for
    each bin; the weight of a most frequent bin equals 1 (so it is at least
    1), such a bin exists, and the weight of every strictly less frequent
    bin is greater than 1. *)
Theorem float32_weight_of_mode_and_rarer_bins (labels counts : list Z)
    (Hb : bincount labels = Some counts)
    (Hnz : Exists (fun c => c <> 0) counts)
    (Hexact : Forall (fun c => c <= 2 ^ 24) counts) :
  exists M w,
    tensor_max counts = Some M
    /\ inverse_frequency_weight_f32 labels = Some w
    /\ length w = length counts
    /\ In M counts
    /\ forall i c, nth_error counts i = Some c ->
         exists x, nth_error w i = Some x
           /\ c <= M
           /\ (c = M -> feqb x (Fin 1) = true /\ fleb (Fin 1) x = true)
           /\ (c < M -> fltb (Fin 1) x = true).
Proof.
  assert (Hne : counts <> []) by (intros ->; inversion Hnz).
  destruct (max_count_positive _ _ Hb Hne) as [M [HM [Hpos Hall]]].
  destruct (tensor_max_spec _ _ HM) as [HinM _].
  assert (HM24 : M <= 2 ^ 24)
    by (rewrite Forall_forall in Hexact; now apply Hexact).
  exists M, (int_true_divide_f32 M counts).
  split; [exact HM |]. split; [now apply inverse_frequency_weight_f32_eq |].
  split; [apply length_map |]. split; [exact HinM |].
  intros i c Hi. exists (fdiv32 (f32_of_int M) (f32_of_int c)).
  split; [unfold int_true_divide_f32; now rewrite nth_error_map, Hi |].
  rewrite Forall_forall in Hall.
  specialize (Hall c (nth_error_In _ _ Hi)).
  destruct (fdiv32_counts M c ltac:(lia) Hall) as [Heq Hlt].
  split; [lia |]. split.
  - intros E. rewrite (Heq E). split; reflexivity.
  - exact Hlt.
Qed.

Lemma float32_weight_of_mode_and_rarer_bins_witness :
  (bincount [3; 3; 4; 1; 3; 4] = Some [0; 1; 0; 3; 2]
   /\ Exists (fun c => c <> 0) [0; 1; 0; 3; 2]
   /\ Forall (fun c => c <= 2 ^ 24) [0; 1; 0; 3; 2])
  /\ exists M w,
       tensor_max [0; 1; 0; 3; 2] = Some M
       /\ inverse_frequency_weight_f32 [3; 3; 4; 1; 3; 4] = Some w
       /\ length w = length [0; 1; 0; 3; 2]
       /\ In M [0; 1; 0; 3; 2]
       /\ forall i c, nth_error [0; 1; 0; 3; 2] i = Some c ->
            exists x, nth_error w i = Some x
              /\ c <= M
              /\ (c = M -> feqb x (Fin 1) = true /\ fleb (Fin 1) x = true)
              /\ (c < M -> fltb (Fin 1) x = true).
Proof.
  assert (Hb : bincount [3; 3; 4; 1; 3; 4] = Some [0; 1; 0; 3; 2]) by reflexivity.
  assert (Hnz : Exists (fun c => c <> 0) [0; 1; 0; 3; 2])
    by (apply Exists_cons_tl, Exists_cons_hd; discriminate).
  assert (Hexact : Forall (fun c => c <= 2 ^ 24) [0; 1; 0; 3; 2])
    by (repeat constructor; discriminate).
  split; [exact (conj Hb (conj Hnz Hexact)) |].
  exact (float32_weight_of_mode_and_rarer_bins [3; 3; 4; 1; 3; 4] [0; 1; 0; 3; 2]
           Hb Hnz Hexact).
Defined.

(** ** Clamping *)

Lemma fclamp_nan (lo hi : fval) : fclamp lo hi NaN = NaN.
Proof. reflexivity. Qed.

Lemma fclamp_bounds (x : fval) :
  is_nan x = false ->
  fleb (Fin 0) (fclamp (of_int 0) (of_int 5) x) = true
  /\ fleb (fclamp (of_int 0) (of_int 5) x) (Fin 5) = true.
Proof.
  destruct x as [q | | |]; intros Hx; try discriminate; try (split; reflexivity).
  unfold fclamp, of_int, fmax, fltb; simpl.
  change (inject_Z 0) with 0%Q. change (inject_Z 5) with 5%Q.
  destruct (q ?= 0)%Q eqn:E0; simpl.
  - unfold fmin, fltb; simpl. destruct (5 ?= q)%Q eqn:E5; simpl.
    + unfold fleb; simpl.
      rewrite <- (Qcompare_antisym q 0), <- (Qcompare_antisym 5 q), E0, E5.
      now split.
    + now split.
    + unfold fleb; simpl.
      rewrite <- (Qcompare_antisym q 0), <- (Qcompare_antisym 5 q), E0, E5.
      now split.
  - now split.
  - unfold fmin, fltb; simpl. destruct (5 ?= q)%Q eqn:E5; simpl.
    + unfold fleb; simpl.
      rewrite <- (Qcompare_antisym q 0), <- (Qcompare_antisym 5 q), E0, E5.
      now split.
    + now split.
    + unfold fleb; simpl.
      rewrite <- (Qcompare_antisym q 0), <- (Qcompare_antisym 5 q), E0, E5.
      now split.
Qed.

(** C5, as the specification states it, fails: a NaN prediction is still
    NaN after the clamp, and NaN is not between 0 and 5. *)
Lemma clamp_keeps_nan :
  clamp (of_int 0) (of_int 5) [Fin 7; NaN] = [Fin 5; NaN]
  /\ fleb (Fin 0) NaN = false
  /\ ~ (forall (pred : tensor) (x : fval),
          In x (clamp (of_int 0) (of_int 5) pred) ->
          fleb (Fin 0) x = true /\ fleb x (Fin 5) = true).
Proof.
  split; [reflexivity |]. split; [reflexivity |].
  intros H. destruct (H [Fin 7; NaN] NaN) as [H0 _].
  - simpl. auto.
  - discriminate H0.
Qed.

(** C5, amended. After the evaluation step clamps a prediction tensor to
    [0, 5], the clamped tensor has the elements of the input clamped one by
    one; every element that comes from a prediction other than NaN (the
    infinities included) is between 0 and 5, and a NaN prediction stays
    NaN. *)
Theorem clamp_within_range (pred : tensor) (i : nat) (x : fval)
    (Hi : nth_error pred i = Some x) :
  exists y,
    nth_error (clamp (of_int 0) (of_int 5) pred) i = Some y
    /\ (is_nan x = false -> fleb (Fin 0) y = true /\ fleb y (Fin 5) = true)
    /\ (is_nan x = true -> y = NaN).
Proof.
  exists (fclamp (of_int 0) (of_int 5) x). split; [| split].
  - unfold clamp. now rewrite nth_error_map, Hi.
  - apply fclamp_bounds.
  - destruct x; try discriminate. reflexivity.
Qed.

Lemma clamp_within_range_witness :
  nth_error [Fin (-3 # 2); PInf; Fin (7 # 2)] 1 = Some PInf
  /\ exists y,
       nth_error (clamp (of_int 0) (of_int 5) [Fin (-3 # 2); PInf; Fin (7 # 2)]) 1
       = Some y
       /\ (is_nan PInf = false -> fleb (Fin 0) y = true /\ fleb y (Fin 5) = true)
       /\ (is_nan PInf = true -> y = NaN).
Proof.
  split; [reflexivity |].
  exact (clamp_within_range [Fin (-3 # 2); PInf; Fin (7 # 2)] 1 PInf eq_refl).
Defined.

(** ** The decoder *)

Lemma getitem_In {A} (t : list A) (i : Z) (a : A) :
  getitem t i = Some a -> In a t.
Proof.
  unfold getitem. destruct (norm_index (length t) i); simpl; [| discriminate].
  apply nth_error_In.
Qed.

Lemma index_tensor_total {A} (t : list A) (idx : list Z) :
  Forall (fun i => - Z.of_nat (length t) <= i < Z.of_nat (length t)) idx ->
  exists r, index_tensor t idx = Some r.
Proof.
  intros H. apply mapM_total.
  eapply Forall_impl; [| exact H]. intros i Hi. now apply getitem_some.
Qed.

Lemma index_tensor_rows {A} (P : A -> Prop) (t r : list A) (idx : list Z) :
  Forall P t -> index_tensor t idx = Some r -> Forall P r.
Proof.
  unfold index_tensor. intros Ht. revert r.
  induction idx as [| i idx IH]; simpl; intros r H.
  - inversion H; constructor.
  - destruct (getitem t i) eqn:Ei; simpl in H; [| discriminate].
    destruct (mapM (getitem t) idx) eqn:E; simpl in H; [| discriminate].
    inversion H; subst. constructor; [| now apply IH].
    rewrite Forall_forall in Ht. apply Ht. eapply getitem_In; eauto.
Qed.

Lemma Linear_forward_rows (l : Linear) (x : matrix) :
  Forall (fun r => length r = in_features l) x ->
  Linear_forward l x = Some (map (affine l) x).
Proof.
  unfold Linear_forward. induction 1 as [| r x Hr _ IH]; simpl; [reflexivity |].
  rewrite Hr, Nat.eqb_refl; simpl. now rewrite IH.
Qed.

Lemma affine_length (l : Linear) (n_in n_out : nat) (x : tensor) :
  Linear_shape l n_in n_out -> length (affine l x) = n_out.
Proof.
  intros [_ [_ [Hw [Hb _]]]]. unfold affine.
  rewrite map2_length; [exact Hw | exact (eq_trans Hw (eq_sym Hb))].
Qed.

Lemma map2_app_rows (a b : matrix) (h : nat) :
  Forall (fun r => length r = h) a -> Forall (fun r => length r = h) b ->
  Forall (fun r => length r = (2 * h)%nat) (map2 (@app fval) a b).
Proof.
  intros Ha. revert b. induction Ha as [| r a Hr _ IH]; intros b Hb; simpl.
  - constructor.
  - destruct Hb as [| s b Hs Hb]; constructor.
    + rewrite length_app. lia.
    + now apply IH.
Qed.

Lemma concat_singletons (l : matrix) :
  Forall (fun r => length r = 1%nat) l ->
  length (concat l) = length l
  /\ forall i s, nth_error l i = Some [s] -> nth_error (concat l) i = Some s.
Proof.
  induction 1 as [| r l Hr _ [IHlen IHnth]]; simpl.
  - split; [reflexivity |]. intros [| i]; discriminate.
  - destruct r as [| s0 [| ? ?]]; try discriminate. simpl.
    split; [now rewrite IHlen |].
    intros [| i] s; simpl.
    + now intros [= ->].
    + apply IHnth.
Qed.

Lemma weighted_sum_dot (acc : fval) (x w : tensor) :
  weighted_sum acc x w = fold_left fadd (map2 fmul x w) acc.
Proof.
  revert acc w; induction x as [| a x IH]; intros acc [| c w]; simpl;
    try reflexivity.
  apply IH.
Qed.

Lemma linear_layer_affine (l : Linear) (x : tensor) :
  linear_layer (lweight l) (lbias l) x = affine l x.
Proof.
  unfold affine. generalize (lbias l).
  induction (lweight l) as [| w W IH]; intros [| b bs]; simpl; try reflexivity.
  rewrite IH. unfold dot, tsum. now rewrite weighted_sum_dot.
Qed.

Lemma rectify_relu (x : fval) : rectify x = frelu x.
Proof.
  destruct x as [q | | |]; try reflexivity.
  unfold rectify, frelu, fmax, fltb, fcompare; simpl.
  now destruct (q ?= 0)%Q.
Qed.

(** The score of a pair in the words of the specification is what the two
    layers and the rectifier of the code compute. *)
Lemma pair_score_layers (self : EdgeDecoder) (u m : tensor) :
  pair_score self u m
  = affine (lin2 self) (map frelu (affine (lin1 self) (u ++ m))).
Proof.
  unfold pair_score. rewrite !linear_layer_affine.
  f_equal. apply map_ext. exact rectify_relu.
Qed.

(** C9. For a decoder with the shapes of its constructor, latent vectors of
    the hidden width for the two node types and two index sequences of the
    same length n that point into them, [forward] returns a flat tensor of
    length n, whose i-th element is the single output of the second linear
    layer on the rectified output of the first linear layer on the user
    vector of pair i followed by its movie vector. *)
Theorem EdgeDecoder_forward_scores (self : EdgeDecoder) (h : nat)
    (z_dict : z_dict_t) (zu zm : matrix) (row col : list Z)
    (Hshape : EdgeDecoder_shape self h)
    (Hu : dict_get z_dict "user"%string = Some zu)
    (Hm : dict_get z_dict "movie"%string = Some zm)
    (Hwu : Forall (fun r => length r = h) zu)
    (Hwm : Forall (fun r => length r = h) zm)
    (Hlen : length row = length col)
    (Hrow : Forall (fun i => - Z.of_nat (length zu) <= i < Z.of_nat (length zu)) row)
    (Hcol : Forall (fun i => - Z.of_nat (length zm) <= i < Z.of_nat (length zm)) col) :
  exists out,
    EdgeDecoder_forward self z_dict [row; col] = Some out
    /\ length out = length row
    /\ forall i r c, nth_error row i = Some r -> nth_error col i = Some c ->
         exists u m s,
           getitem zu r = Some u /\ getitem zm c = Some m
           /\ pair_score self u m = [s]
           /\ nth_error out i = Some s.
Proof.
  destruct Hshape as [H1 H2].
  destruct (index_tensor_total zu row Hrow) as [U HU].
  destruct (index_tensor_total zm col Hcol) as [V HV].
  pose proof (mapM_length _ _ _ HU) as HlU.
  pose proof (mapM_length _ _ _ HV) as HlV.
  pose proof (index_tensor_rows _ _ _ _ Hwu HU) as HwU.
  pose proof (index_tensor_rows _ _ _ _ Hwm HV) as HwV.
  set (z0 := map2 (@app fval) U V).
  set (z1 := map (affine (lin1 self)) z0).
  set (z2 := map (affine (lin2 self)) (relu z1)).
  assert (E0 : cat_last U V = Some z0).
  { unfold cat_last. replace (length U =? length V)%nat with true; [reflexivity |].
    symmetry. apply Nat.eqb_eq. lia. }
  assert (E1 : Linear_forward (lin1 self) z0 = Some z1).
  { apply Linear_forward_rows. destruct H1 as [-> _].
    now apply map2_app_rows. }
  assert (E2 : Linear_forward (lin2 self) (relu z1) = Some z2).
  { apply Linear_forward_rows. destruct H2 as [Hin _]. rewrite Hin.
    unfold relu, z1. rewrite !Forall_map. apply Forall_forall. intros r _.
    rewrite length_map. now apply (affine_length _ _ _ _ H1). }
  assert (Hsing : Forall (fun r => length r = 1%nat) z2).
  { unfold z2. rewrite Forall_map. apply Forall_forall. intros r _.
    now apply (affine_length _ _ _ _ H2). }
  destruct (concat_singletons z2 Hsing) as [Hcl Hcn].
  exists (view_flat z2). split; [| split].
  - unfold EdgeDecoder_forward. rewrite Hu; simpl. rewrite HU; simpl.
    rewrite Hm; simpl. rewrite HV; simpl. rewrite E0; simpl.
    rewrite E1; simpl. now rewrite E2.
  - unfold view_flat. rewrite Hcl. unfold z2, relu, z1, z0.
    rewrite !length_map, map2_length; lia.
  - intros i r c Hr Hc.
    destruct (mapM_nth _ _ _ HU i r Hr) as [u [Hgu HUi]].
    destruct (mapM_nth _ _ _ HV i c Hc) as [m [Hgm HVi]].
    assert (Hz2 : nth_error z2 i = Some (pair_score self u m)).
    { rewrite pair_score_layers. unfold z2, relu, z1, z0.
      rewrite !nth_error_map, (map2_nth _ _ _ _ _ _ HUi HVi). reflexivity. }
    assert (Hone : length (pair_score self u m) = 1%nat).
    { rewrite Forall_forall in Hsing. apply Hsing.
      eapply nth_error_In; eauto. }
    destruct (pair_score self u m) as [| s [| ? ?]] eqn:Es; try discriminate.
    exists u, m, s. split; [exact Hgu |]. split; [exact Hgm |].
    split; [exact Es |]. unfold view_flat. now apply Hcn.
Qed.

Lemma EdgeDecoder_forward_scores_witness :
  (EdgeDecoder_shape (Toy.decoder 2) 2
   /\ dict_get Toy.latents "user"%string = Some Toy.users
   /\ dict_get Toy.latents "movie"%string = Some Toy.movies
   /\ Forall (fun r => length r = 2%nat) Toy.users
   /\ Forall (fun r => length r = 2%nat) Toy.movies
   /\ length [0; 1; -1] = length [0; 0; 0])
  /\ EdgeDecoder_forward (Toy.decoder 2) Toy.latents [[0; 1; -1]; [0; 0; 0]]
     = Some [Fin 10; Fin 0; Fin 0]
  /\ pair_score (Toy.decoder 2) [Fin 1; Fin 2] [Fin 1; Fin 1] = [Fin 10]
  /\ pair_score (Toy.decoder 2) [Fin 0; Fin (-7)] [Fin 1; Fin 1] = [Fin 0]
  /\ exists out,
       EdgeDecoder_forward (Toy.decoder 2) Toy.latents [[0; 1; -1]; [0; 0; 0]] = Some out
       /\ length out = length [0; 1; -1]
       /\ forall i r c, nth_error [0; 1; -1] i = Some r -> nth_error [0; 0; 0] i = Some c ->
            exists u m s,
              getitem Toy.users r = Some u /\ getitem Toy.movies c = Some m
              /\ pair_score (Toy.decoder 2) u m = [s]
              /\ nth_error out i = Some s.
Proof.
  assert (Hshape : EdgeDecoder_shape (Toy.decoder 2) 2)
    by (repeat split; repeat constructor).
  assert (Hwu : Forall (fun r => length r = 2%nat) Toy.users)
    by (repeat constructor).
  assert (Hwm : Forall (fun r => length r = 2%nat) Toy.movies)
    by (repeat constructor).
  assert (Hrow : Forall (fun i => - Z.of_nat (length Toy.users) <= i
                                  < Z.of_nat (length Toy.users)) [0; 1; -1])
    by (repeat constructor; simpl; lia).
  assert (Hcol : Forall (fun i => - Z.of_nat (length Toy.movies) <= i
                                  < Z.of_nat (length Toy.movies)) [0; 0; 0])
    by (repeat constructor; simpl; lia).
  split; [exact (conj Hshape (conj eq_refl (conj eq_refl (conj Hwu (conj Hwm eq_refl))))) |].
  split; [vm_compute; reflexivity |].
  split; [vm_compute; reflexivity |].
  split; [vm_compute; reflexivity |].
  exact (EdgeDecoder_forward_scores (Toy.decoder 2) 2 Toy.latents Toy.users
           Toy.movies [0; 1; -1] [0; 0; 0] Hshape eq_refl eq_refl Hwu Hwm
           eq_refl Hrow Hcol).
Defined.

(** ** The weights fit the labels they were computed from *)

Lemma script_weight_indexes (flag : bool) (labels : list Z) (weight : option tensor) :
  script_weight flag labels = Some weight ->
  forall wt, weight = Some wt ->
    Forall (fun t => - Z.of_nat (length wt) <= t < Z.of_nat (length wt)) labels.
Proof.
  unfold script_weight. intros H wt ->.
  destruct flag; [| discriminate].
  destruct (inverse_frequency_weight labels) as [w |] eqn:E; [| discriminate].
  simpl in H. inversion H; subst w; clear H.
  unfold inverse_frequency_weight in E.
  destruct (bincount labels) as [counts |] eqn:Ec; [| discriminate].
  simpl in E. destruct (tensor_max counts) as [M |] eqn:EM; [| discriminate].
  simpl in E. inversion E; subst wt; clear E.
  assert (Hne : counts <> []) by (intros ->; discriminate).
  destruct (bincount_bins _ _ Ec Hne) as [m [_ [Hm [Hall Heq]]]].
  unfold int_true_divide. rewrite length_map, Heq, length_map, length_seq.
  eapply Forall_impl; [| exact Hall]. simpl. intros t Ht. lia.
Qed.

(** ** The training and the evaluation step *)

Section Steps.

Context {B : Backend}.

Lemma clamp_length (lo hi : fval) (t : tensor) : length (clamp lo hi t) = length t.
Proof. apply length_map. Qed.

Lemma mse_loss_same_length (input : tensor) (target : list Z) :
  length input = length target ->
  mse_loss input (to_dtype target)
  = Some (mean (pow2 (map2 fsub input (to_dtype target)))).
Proof.
  intros H. unfold mse_loss.
  rewrite broadcast2_same by (unfold to_dtype; now rewrite length_map).
  reflexivity.
Qed.

Lemma test_run (data : HeteroData) (w : world) (pred : tensor) :
  forward_ok (encoder_params (model w)) (decoder (model w)) data pred ->
  exists mse,
    mse_loss (clamp (of_int 0) (of_int 5) pred) (to_dtype (edge_label data)) = Some mse
    /\ test data w = Some (Sqrt mse, after_test w).
Proof.
  intros [Hmat [z [Hz [Hpred Hlen]]]].
  eexists. split.
  - apply mse_loss_same_length. now rewrite clamp_length.
  - unfold test, no_grad, bind, set_training, Model_forward, lift, ret; simpl.
    rewrite Hmat, Hz, Hpred; simpl.
    rewrite mse_loss_same_length by (now rewrite clamp_length).
    reflexivity.
Qed.

Lemma train_run (train_data : HeteroData) (weight : option tensor)
    (w : world) (o : Optimizer) (pred : tensor) (loss : fval) :
  grad_enabled w = true ->
  optimizer w = Some o ->
  forward_ok (encoder_params (model w)) (decoder (model w)) train_data pred ->
  weighted_mse_loss pred (edge_label train_data) weight = Some loss ->
  train train_data weight w = Some (loss, after_train train_data weight o w).
Proof.
  intros Hg Ho [Hmat [z [Hz [Hpred Hlen]]]] Hloss.
  unfold train, bind, set_training, zero_grad, Model_forward, lift, backward,
    step, ret, after_train; simpl.
  rewrite Ho; simpl. rewrite Hmat, Hz, Hpred; simpl.
  rewrite Hloss, Hg; simpl. rewrite Ho; simpl.
  destruct (adam_step _ _ _ _ _) as [st [p dec]]; simpl.
  unfold log, set_optimizer, set_model, set_grads; simpl.
  rewrite <- !app_assoc, Hg. reflexivity.
Qed.





End Steps.


(** ** The loop *)

Section Loop.

Context {B : Backend}.

Variables train_data val_data test_data : HeteroData.
Variable use_weighted_loss : bool.
Variable weight : option tensor.

(** The parameters on which the model runs: a property that the forward
    pass needs on the three splits and that an optimizer step keeps. *)
Variable good : EncParams -> EdgeDecoder -> Prop.

Hypothesis good_forward :
  forall p dec d, good p dec -> In d [train_data; val_data; test_data] ->
    exists pred, forward_ok p dec d pred.

Hypothesis good_step :
  forall l st p dec g, good p dec ->
    good (fst (snd (adam_step l st p dec g))) (snd (snd (adam_step l st p dec g))).

Hypothesis weight_from_labels :
  script_weight use_weighted_loss (edge_label train_data) = Some weight.

Let body := epoch_body train_data val_data test_data weight.

(** What every iteration finds and leaves: gradients are tracked, the
    optimizer exists with learning rate [r], the parameters are good. *)
Let inv (r : Q) (w : world) : Prop :=
  grad_enabled w = true
  /\ (exists o, optimizer w = Some o /\ lr o = r)
  /\ good (encoder_params (model w)) (decoder (model w)).

Lemma epoch_run (r : Q) (e : nat) (w : world) :
  inv r w ->
  exists loss a b c w4,
    train train_data weight w = Some (loss, w4)
    /\ exists w3 w2 w1,
         test train_data w4 = Some (a, w3)
         /\ test val_data w3 = Some (b, w2)
         /\ test test_data w2 = Some (c, w1)
         /\ body e w = Some (tt, put_line (mkLine e loss a b c) w1)
         /\ inv r w1
         /\ stdout w1 = stdout w
         /\ trace w1 ++ [EvPrint (mkLine e loss a b c)]
            = trace w ++ epoch_events (mkLine e loss a b c).
Proof.
  intros [Hg [[o [Ho Hr]] Hgood]].
  destruct (good_forward _ _ train_data Hgood) as [pred Hfwd]; [simpl; auto |].
  destruct (weighted_mse_loss_total pred (edge_label train_data) weight)
    as [loss Hloss].
  { destruct Hfwd as [_ [z [_ [_ Hlen]]]]. exact Hlen. }
  { exact (script_weight_indexes _ _ _ weight_from_labels). }
  pose proof (train_run train_data weight w o pred loss Hg Ho Hfwd Hloss) as Htrain.
  set (w4 := after_train train_data weight o w) in *.
  assert (Hgood4 : good (encoder_params (model w4)) (decoder (model w4)))
    by (apply good_step; exact Hgood).
  destruct (good_forward _ _ train_data Hgood4) as [p1 Hf1]; [simpl; auto |].
  destruct (test_run train_data w4 p1 Hf1) as [m1 [_ Ht1]].
  destruct (good_forward _ _ val_data Hgood4) as [p2 Hf2]; [simpl; auto |].
  destruct (test_run val_data (after_test w4) p2 Hf2) as [m2 [_ Ht2]].
  destruct (good_forward _ _ test_data Hgood4) as [p3 Hf3]; [simpl; auto |].
  destruct (test_run test_data (after_test (after_test w4)) p3 Hf3) as [m3 [_ Ht3]].
  exists loss, (Sqrt m1), (Sqrt m2), (Sqrt m3), w4.
  split; [exact Htrain |].
  exists (after_test w4), (after_test (after_test w4)),
         (after_test (after_test (after_test w4))).
  split; [exact Ht1 |]. split; [exact Ht2 |]. split; [exact Ht3 |].
  split; [| split; [| split]].
  - unfold body, epoch_body, bind. now rewrite Htrain, Ht1, Ht2, Ht3.
  - split; [reflexivity |]. split; [| exact Hgood4].
    simpl. eexists; split; [reflexivity | exact Hr].
  - reflexivity.
  - unfold epoch_events. simpl. now rewrite <- !app_assoc.
Qed.

Lemma loop_run (r : Q) (n : nat) :
  forall (e : nat) (w : world),
    inv r w ->
    exists w' lines,
      for_each (seq e n) body w = Some (tt, w')
      /\ epochs train_data val_data test_data weight e n w w'
      /\ stdout w' = stdout w ++ lines
      /\ map line_epoch lines = seq e n
      /\ trace w' = trace w ++ flat_map epoch_events lines
      /\ inv r w'.
Proof.
  induction n as [| n IH]; intros e w Hinv.
  - exists w, []. simpl. rewrite !app_nil_r.
    split; [reflexivity |]. split; [apply epochs_done |].
    split; [reflexivity |]. split; [reflexivity |].
    split; [reflexivity | exact Hinv].
  - destruct (epoch_run r e w Hinv)
      as [loss [a [b [c [w4 [Htrain [w3 [w2 [w1 H]]]]]]]]].
    destruct H as [Ha [Hb [Hc [Hbody [Hinv1 [Hout Htr]]]]]].
    set (l := mkLine e loss a b c) in *.
    assert (Hinv' : inv r (put_line l w1)) by exact Hinv1.
    destruct (IH (S e) (put_line l w1) Hinv')
      as [w' [lines [Hrun [Hep [Hout' [Hnum [Htr' Hinv'']]]]]]].
    exists w', (l :: lines).
    split; [| split; [| split; [| split; [| split]]]].
    + simpl. unfold bind. fold body. rewrite Hbody. exact Hrun.
    + eapply epochs_next; eauto.
    + rewrite Hout'. simpl. rewrite Hout. now rewrite <- app_assoc.
    + simpl. now rewrite Hnum.
    + rewrite Htr'. simpl flat_map. simpl trace at 1.
      rewrite Htr. now rewrite <- app_assoc.
    + exact Hinv''.
Qed.

(** C7. Started with gradient tracking on, an optimizer and parameters on
    which the model runs, the loop terminates after exactly 300 iterations,
    numbered 1 to 300: each one trains once, evaluates the training, the
    validation and the test split, and prints one line with the loss and the
    three RMSEs; nothing else happens (the trace holds no other event: the
    loop never leaves early and stores nothing), and the learning rate at
    the end is the one at the start. *)
Theorem main_loop_runs_300_epochs (w : world) (o : Optimizer)
    (Hgrad : grad_enabled w = true)
    (Hopt : optimizer w = Some o)
    (Hgood : good (encoder_params (model w)) (decoder (model w))) :
  exists w' lines,
    main_loop train_data val_data test_data weight w = Some (tt, w')
    /\ epochs train_data val_data test_data weight 1 300 w w'
    /\ stdout w' = stdout w ++ lines
    /\ length lines = 300%nat
    /\ map line_epoch lines = seq 1 300
    /\ trace w' = trace w ++ flat_map epoch_events lines
    /\ exists o', optimizer w' = Some o' /\ lr o' = lr o.
Proof.
  assert (Hinv : inv (lr o) w).
  { split; [exact Hgrad |]. split; [| exact Hgood]. now exists o. }
  destruct (loop_run (lr o) 300 1 w Hinv)
    as [w' [lines [Hrun [Hep [Hout [Hnum [Htr [_ [Ho _]]]]]]]]].
  exists w', lines.
  split; [exact Hrun |]. split; [exact Hep |]. split; [exact Hout |].
  split; [| split; [exact Hnum |]; split; [exact Htr | exact Ho]].
  rewrite <- (length_map line_epoch), Hnum. apply length_seq.
Qed.

End Loop.

Lemma main_loop_runs_300_epochs_witness :
  let good := fun (p : bool) (dec : EdgeDecoder) => p = false /\ dec = Toy.decoder 32 in
  let weight := Some (int_true_divide 1 [0; 0; 0; 0; 0; 1]) in
  (script_weight true (edge_label Toy.data) = Some weight
   /\ grad_enabled Toy.trained = true
   /\ good (encoder_params (model Toy.trained)) (decoder (model Toy.trained)))
  /\ exists w' lines,
       main_loop (B := Toy.backend) Toy.data Toy.data Toy.data weight Toy.trained
       = Some (tt, w')
       /\ epochs Toy.data Toy.data Toy.data weight 1 300 Toy.trained w'
       /\ stdout w' = stdout Toy.trained ++ lines
       /\ length lines = 300%nat
       /\ map line_epoch lines = seq 1 300
       /\ trace w' = trace Toy.trained ++ flat_map epoch_events lines
       /\ exists o', optimizer w' = Some o' /\ lr o' = (1 # 100)%Q.
Proof.
  intros good weight.
  assert (Hfwd : forall p dec d, good p dec -> In d [Toy.data; Toy.data; Toy.data] ->
                   exists pred, forward_ok (B := Toy.backend) p dec d pred).
  { intros p dec d [-> ->] Hd. exists [Fin 32].
    assert (d = Toy.data) as -> by (simpl in Hd; intuition).
    split; [reflexivity |]. exists (graph Toy.data).
    split; [reflexivity |]. split; [vm_compute; reflexivity | reflexivity]. }
  assert (Hstep : forall l st p dec g, good p dec ->
                    good (fst (snd (adam_step (Backend := Toy.backend) l st p dec g)))
                         (snd (snd (adam_step (Backend := Toy.backend) l st p dec g))))
    by (intros l st p dec g H; exact H).
  assert (Hweight : script_weight true (edge_label Toy.data) = Some weight)
    by reflexivity.
  assert (Hgood : good (encoder_params (model Toy.trained)) (decoder (model Toy.trained)))
    by (split; reflexivity).
  split; [exact (conj Hweight (conj eq_refl Hgood)) |].
  exact (main_loop_runs_300_epochs (B := Toy.backend) Toy.data Toy.data Toy.data
           true weight good Hfwd Hstep Hweight Toy.trained
           (@mkOptimizer Toy.backend (false, Toy.decoder 32) (1 # 100) O)
           eq_refl eq_refl Hgood).
Defined.

(** ** The start of the script *)

Section Start.

Context {B : Backend}.

(** C8. From the freshly constructed model, the script runs one forward pass
    of the encoder, with gradient tracking disabled, and only then creates
    the optimizer: these are the three events of the start, in this order.
    When shape inference leaves no parameter uninitialized, the parameters
    the optimizer is given are all initialized and are the ones of the
    model. *)
Theorem initialize_infers_before_optimizer (train_data : HeteroData)
    (z_dict : z_dict_t)
    (Hinfer : forall p g, is_lazy (materialize p g) = false)
    (Hz : encoder (materialize (encoder_init 32) (graph train_data))
                  (graph train_data) = Some z_dict) :
  optimizer start = None
  /\ exists w,
       initialize train_data start = Some (tt, w)
       /\ trace w = [EvConstruct 32; EvEncoderForward false; EvOptimizerInit]
       /\ encoder_params (model w)
          = materialize (encoder_init 32) (graph train_data)
       /\ is_lazy (encoder_params (model w)) = false
       /\ grad_enabled w = true
       /\ exists o, optimizer w = Some o
            /\ opt_params o = (encoder_params (model w), decoder (model w))
            /\ is_lazy (fst (opt_params o)) = false
            /\ lr o = (1 # 100)%Q.
Proof.
  split; [reflexivity |].
  unfold initialize, bind, no_grad, encoder_call, Adam; simpl.
  rewrite Hz; simpl. eexists. split; [reflexivity |]. simpl.
  split; [reflexivity |]. split; [reflexivity |].
  split; [apply Hinfer |]. split; [reflexivity |].
  eexists. split; [reflexivity |]. simpl.
  split; [reflexivity |]. split; [apply Hinfer | reflexivity].
Qed.

End Start.

Lemma initialize_infers_before_optimizer_witness :
  ((forall (p : bool) (g : z_dict_t), is_lazy (Backend := Toy.backend)
                                        (materialize (Backend := Toy.backend) p g) = false)
   /\ encoder (Backend := Toy.backend)
        (materialize (Backend := Toy.backend) (encoder_init 32) (graph Toy.data))
        (graph Toy.data) = Some (graph Toy.data))
  /\ optimizer (start (B := Toy.backend)) = None
  /\ exists w,
       initialize (B := Toy.backend) Toy.data start = Some (tt, w)
       /\ trace w = [EvConstruct 32; EvEncoderForward false; EvOptimizerInit]
       /\ encoder_params (model w)
          = materialize (Backend := Toy.backend) (encoder_init 32) (graph Toy.data)
       /\ is_lazy (encoder_params (model w)) = false
       /\ grad_enabled w = true
       /\ exists o, optimizer w = Some o
            /\ opt_params o = (encoder_params (model w), decoder (model w))
            /\ is_lazy (fst (opt_params o)) = false
            /\ lr o = (1 # 100)%Q.
Proof.
  assert (Hinfer : forall (p : bool) (g : z_dict_t),
             is_lazy (Backend := Toy.backend)
               (materialize (Backend := Toy.backend) p g) = false)
    by (intros p g; reflexivity).
  split; [exact (conj Hinfer eq_refl) |].
  exact (initialize_infers_before_optimizer (B := Toy.backend) Toy.data
           (graph Toy.data) Hinfer eq_refl).
Defined.

(** ** Training loss against evaluation error *)

(** C10. The training step takes its loss on the predictions as the model
    returns them, the evaluation step clamps them first.  On the small
    model, whose only prediction is 32 (outside [0, 5]) for the label 5, one
    training step without weights returns the loss 729 = (32 - 5)^2, the
    squared error of the raw prediction; the evaluation of the training
    split that follows, on the same prediction, returns the root of
    0 = (5 - 5)^2, the squared error of the clamped prediction 5; so the
    loss and the square of the RMSE printed in that iteration differ. *)
Theorem train_loss_is_not_clamped :
  exists w1 w2 : world,
    forward_ok (B := Toy.backend) (encoder_params (model Toy.trained))
      (decoder (model Toy.trained)) Toy.data [Fin 32]
    /\ edge_label Toy.data = [5]
    /\ fltb (Fin 5) (Fin 32) = true
    /\ train (B := Toy.backend) Toy.data None Toy.trained = Some (Fin 729, w1)
    /\ (qmean (sq_errors [32] [5%Z]) == 729)%Q
    /\ forward_ok (B := Toy.backend) (encoder_params (model w1))
         (decoder (model w1)) Toy.data [Fin 32]
    /\ test (B := Toy.backend) Toy.data w1 = Some (Sqrt (Fin 0), w2)
    /\ clamped_rating (Fin 32) (Fin 5)
    /\ (qmean (sq_errors [5] [5%Z]) == 0)%Q
    /\ squared (Sqrt (Fin 0)) = Fin 0
    /\ ~ (729 == 0)%Q
    /\ feqb (Fin 729) (squared (Sqrt (Fin 0))) = false.
Proof.
  assert (Hfwd : forward_ok (B := Toy.backend) false (Toy.decoder 32) Toy.data [Fin 32]).
  { split; [reflexivity |]. exists (graph Toy.data).
    split; [reflexivity |]. split; [vm_compute; reflexivity | reflexivity]. }
  eexists. eexists.
  split; [exact Hfwd |].
  split; [reflexivity |].
  split; [reflexivity |].
  split; [vm_compute; reflexivity |].
  split; [reflexivity |].
  split; [exact Hfwd |].
  split; [vm_compute; reflexivity |].
  split.
  { split; [| split]; intros H; try reflexivity;
      [discriminate H | destruct H as [_ H]; now elim H]. }
  split; [reflexivity |].
  split; [reflexivity |].
  split; [discriminate | reflexivity].
Qed.

(** ** The link-level split *)

Lemma split_count_tenth (n : nat) :
  split_count (1 # 10) n = Z.to_nat (Z.of_nat n / 10).
Proof.
  unfold split_count, Qfloor, Qmult, inject_Z; simpl.
  now destruct (Z.of_nat n).
Qed.

Lemma tenth_bounds (n : nat) :
  (10 * Z.to_nat (Z.of_nat n / 10) <= n < 10 * Z.to_nat (Z.of_nat n / 10) + 10)%nat.
Proof.
  pose proof (Z.mul_div_le (Z.of_nat n) 10 ltac:(lia)).
  pose proof (Z.mul_succ_div_gt (Z.of_nat n) 10 ltac:(lia)).
  pose proof (Z.div_pos (Z.of_nat n) 10 ltac:(lia) ltac:(lia)).
  lia.
Qed.

Lemma NoDup_app_disjoint {E} (a b : list E) :
  NoDup (a ++ b) -> forall e, In e a -> ~ In e b.
Proof.
  induction a as [| x a IH]; simpl; intros H e Hin; [contradiction |].
  inversion H as [| ? ? Hx Hrest]; subst.
  destruct Hin as [-> | Hin].
  - intros Hb. apply Hx. apply in_or_app. now right.
  - now apply IH.
Qed.

Lemma split_in_three {E} (perm : list E) (a b : nat) :
  perm = firstn a perm ++ firstn b (skipn a perm) ++ skipn (a + b) perm.
Proof.
  rewrite Nat.add_comm, <- skipn_skipn.
  now rewrite (firstn_skipn b (skipn a perm)), firstn_skipn.
Qed.

(** C4. When every labelled edge of the relation occurs once in the order
    in which the split deals the edges out, the training, validation and
    test edges together are the labelled edges, no edge is in two of them,
    their numbers add up to the number of labelled edges, and validation
    and test hold a tenth of the edges each, rounded down, the training
    split the rest (between 80% and 80% plus two edges). *)
Theorem link_split_partitions {E} (perm : list E) (Hnodup : NoDup perm) :
  let '(train_edges, val_edges, test_edges) := link_split perm in
  let n := length perm in
  perm = train_edges ++ val_edges ++ test_edges
  /\ (forall e, In e train_edges -> ~ In e val_edges)
  /\ (forall e, In e train_edges -> ~ In e test_edges)
  /\ (forall e, In e val_edges -> ~ In e test_edges)
  /\ (length train_edges + length val_edges + length test_edges = n)%nat
  /\ (10 * length val_edges <= n < 10 * length val_edges + 10)%nat
  /\ (10 * length test_edges <= n < 10 * length test_edges + 10)%nat
  /\ (8 * n <= 10 * length train_edges < 8 * n + 20)%nat.
Proof.
  unfold link_split, RandomLinkSplit. rewrite split_count_tenth.
  set (n := length perm). set (k := Z.to_nat (Z.of_nat n / 10)).
  pose proof (tenth_bounds n) as Hk. fold k in Hk.
  set (a := (n - k - k)%nat).
  pose proof (split_in_three perm a k) as Hsplit.
  set (tr := firstn a perm) in *.
  set (va := firstn k (skipn a perm)) in *.
  set (te := skipn (a + k) perm) in *.
  assert (Htr : length tr = a) by (unfold tr; rewrite firstn_length_le; lia).
  assert (Hva : length va = k)
    by (unfold va; rewrite firstn_length_le; [| rewrite length_skipn]; lia).
  assert (Hte : length te = k) by (unfold te; rewrite length_skipn; lia).
  rewrite Hsplit in Hnodup.
  split; [exact Hsplit |].
  split; [| split; [| split]].
  - intros e He Hv. apply (NoDup_app_disjoint _ _ Hnodup e He).
    apply in_or_app. now left.
  - intros e He Ht. apply (NoDup_app_disjoint _ _ Hnodup e He).
    apply in_or_app. now right.
  - apply NoDup_app_disjoint. now apply NoDup_app_remove_l in Hnodup.
  - rewrite Htr, Hva, Hte. lia.
Qed.

Lemma link_split_partitions_witness :
  NoDup (rev (seq 0 25))
  /\ let '(train_edges, val_edges, test_edges) := link_split (rev (seq 0 25)) in
     let n := length (rev (seq 0 25)) in
     rev (seq 0 25) = train_edges ++ val_edges ++ test_edges
     /\ (forall e, In e train_edges -> ~ In e val_edges)
     /\ (forall e, In e train_edges -> ~ In e test_edges)
     /\ (forall e, In e val_edges -> ~ In e test_edges)
     /\ (length train_edges + length val_edges + length test_edges = n)%nat
     /\ (10 * length val_edges <= n < 10 * length val_edges + 10)%nat
     /\ (10 * length test_edges <= n < 10 * length test_edges + 10)%nat
     /\ (8 * n <= 10 * length train_edges < 8 * n + 20)%nat.
Proof.
  assert (Hnodup : NoDup (rev (seq 0 25))) by (apply NoDup_rev, seq_NoDup).
  split; [exact Hnodup |].
  exact (link_split_partitions (rev (seq 0 25)) Hnodup).
Defined.

(** * Further properties of the script *)

(** ** The weights *)

Lemma existsb_neg_true (l : list Z) :
  existsb (fun v => v <? 0) l = true <-> Exists (fun v => v < 0) l.
Proof.
  rewrite existsb_exists, Exists_exists.
  split; intros [x [Hin Hx]]; exists x; split; auto; now apply Z.ltb_lt.
Qed.


(** X1. The weights of lines 44-45 cannot be computed (the script raises)
    exactly when there is no training label or one of them is negative;
    otherwise there is one weight for each value from 0 to the largest
    label. *)
Theorem inverse_frequency_weight_raises_iff (labels : list Z) :
  (inverse_frequency_weight labels = None
   <-> labels = [] \/ Exists (fun v => v < 0) labels)
  /\ (forall w, inverse_frequency_weight labels = Some w ->
        exists m, tensor_max labels = Some m /\ 0 <= m
                  /\ length w = S (Z.to_nat m)).
Proof.
  split.
  - unfold inverse_frequency_weight, bincount.
    destruct (existsb (fun v => v <? 0) labels) eqn:E; simpl.
    + apply existsb_neg_true in E. split; auto.
    + assert (Hnn : ~ Exists (fun v => v < 0) labels).
      { intros H. apply existsb_neg_true in H. congruence. }
      destruct labels as [| x t]; simpl.
      * split; auto.
      * split; [discriminate |]. intros [H | H]; [discriminate | contradiction].
  - intros w H. unfold inverse_frequency_weight in H.
    destruct (bincount labels) as [counts |] eqn:Ec; [| discriminate].
    cbn [obind] in H.
    destruct (tensor_max counts) as [M |] eqn:EM; [| discriminate].
    cbn [obind] in H. inversion H; subst w; clear H.
    assert (Hne : counts <> []) by (intros ->; discriminate).
    destruct (bincount_bins _ _ Ec Hne) as [m [Hm [Hm0 [_ Heq]]]].
    exists m. split; [exact Hm |]. split; [exact Hm0 |].
    unfold int_true_divide. now rewrite length_map, Heq, length_map, length_seq.
Qed.



(** X3. With the weights the script computes from the training labels
    (weighted or not), the loss of any prediction vector of the length of
    the labels returns a value: indexing the weights by the labels never
    raises. *)
Theorem script_weight_loss_returns (flag : bool) (labels : list Z)
    (weight : option tensor) (pred : tensor)
    (Hw : script_weight flag labels = Some weight)
    (Hlen : length pred = length labels) :
  exists v, weighted_mse_loss pred labels weight = Some v.
Proof.
  apply weighted_mse_loss_total; [exact Hlen |].
  exact (script_weight_indexes flag labels weight Hw).
Qed.

Lemma script_weight_loss_returns_witness :
  (script_weight true [3; 3; 4; 1; 3; 4]
   = Some (Some (int_true_divide 3 [0; 1; 0; 3; 2]))
   /\ length [NaN; PInf; Fin 2; Fin 1; Fin 3; Fin 9] = length [3; 3; 4; 1; 3; 4])
  /\ exists v,
       weighted_mse_loss [NaN; PInf; Fin 2; Fin 1; Fin 3; Fin 9] [3; 3; 4; 1; 3; 4]
         (Some (int_true_divide 3 [0; 1; 0; 3; 2])) = Some v.
Proof.
  split; [split; reflexivity |].
  exact (script_weight_loss_returns true [3; 3; 4; 1; 3; 4]
           (Some (int_true_divide 3 [0; 1; 0; 3; 2]))
           [NaN; PInf; Fin 2; Fin 1; Fin 3; Fin 9] eq_refl eq_refl).
Defined.

(** ** The loss on finite predictions *)

Lemma fold_fadd_finite (qs : list Q) (a : Q) :
  fold_left fadd (map Fin qs) (Fin a) = Fin (fold_left Qplus qs a).
Proof.
  revert a; induction qs as [| q qs IH]; intros a; simpl; [reflexivity |].
  apply IH.
Qed.

Lemma tsum_finite (qs : list Q) : tsum (finite qs) = Fin (qsum qs).
Proof. apply fold_fadd_finite. Qed.

Lemma fdiv_finite_by_length (x : Q) (n : nat) :
  (0 < n)%nat ->
  fdiv (Fin x) (of_int (Z.of_nat n)) = Fin (x / inject_Z (Z.of_nat n)).
Proof.
  intros H. unfold fdiv, of_int.
  destruct (Qeq_bool (inject_Z (Z.of_nat n)) 0) eqn:E; [| reflexivity].
  apply Qeq_bool_iff in E. change 0%Q with (inject_Z 0) in E.
  rewrite inject_Z_injective in E. lia.
Qed.

Lemma mean_finite (qs : list Q) :
  qs <> [] -> mean (finite qs) = Fin (qmean qs).
Proof.
  intros H. unfold mean, qmean. rewrite tsum_finite.
  unfold finite. rewrite length_map.
  apply fdiv_finite_by_length. destruct qs; [contradiction | simpl; lia].
Qed.

Lemma errors_finite (ps : list Q) (ts : list Z) :
  pow2 (map2 fsub (finite ps) (to_dtype ts)) = finite (sq_errors ps ts).
Proof.
  revert ts; induction ps as [| p ps IH]; intros [| t ts]; simpl; try reflexivity.
  f_equal. apply IH.
Qed.

Lemma qsum_from (l : list Q) (a : Q) :
  (fold_left Qplus l a == a + qsum l)%Q.
Proof.
  unfold qsum. revert a; induction l as [| x l IH]; intros a; simpl.
  - ring.
  - rewrite (IH (a + x)%Q), (IH (0 + x)%Q). ring.
Qed.

Lemma qsum_cons (x : Q) (l : list Q) : (qsum (x :: l) == x + qsum l)%Q.
Proof.
  unfold qsum at 1. simpl. rewrite qsum_from. ring.
Qed.

Lemma qsum_nonneg (l : list Q) :
  Forall (fun x => (0 <= x)%Q) l -> (0 <= qsum l)%Q.
Proof.
  induction 1 as [| x l Hx _ IH].
  - apply Qle_refl.
  - rewrite qsum_cons. lra.
Qed.


Lemma sq_error_nonneg (p : Q) (t : Z) : (0 <= sq_error p t)%Q.
Proof.
  unfold sq_error. generalize (p - inject_Z t)%Q. intros x.
  destruct (Qlt_le_dec x 0) as [H | H].
  - setoid_replace (x * x)%Q with ((- x) * (- x))%Q by ring.
    apply Qmult_le_0_compat; lra.
  - now apply Qmult_le_0_compat.
Qed.


Lemma sq_errors_nonneg (ps : list Q) (ts : list Z) :
  Forall (fun x => (0 <= x)%Q) (sq_errors ps ts).
Proof.
  revert ts; induction ps as [| p ps IH]; intros [| t ts]; simpl; try constructor.
  - apply sq_error_nonneg.
  - apply IH.
Qed.


Lemma sq_errors_length (ps : list Q) (ts : list Z) :
  length ps = length ts -> length (sq_errors ps ts) = length ts.
Proof. intros H. unfold sq_errors. rewrite map2_length; lia. Qed.

Lemma qmean_sign (l : list Q) :
  l <> [] ->
  ((0 <= qsum l)%Q -> (0 <= qmean l)%Q)
  /\ ((qmean l == 0)%Q <-> (qsum l == 0)%Q).
Proof.
  intros Hne. unfold qmean.
  assert (Hn : (0 < inject_Z (Z.of_nat (length l)))%Q).
  { change 0%Q with (inject_Z 0). rewrite <- Zlt_Qlt.
    destruct l; [contradiction | simpl; lia]. }
  split.
  - intros H. apply Qle_shift_div_l; [exact Hn | lra].
  - split; intros H.
    + assert (E : (qsum l == qsum l / inject_Z (Z.of_nat (length l))
                             * inject_Z (Z.of_nat (length l)))%Q)
        by (field; lra).
      rewrite E, H. ring.
    + rewrite H. field. lra.
Qed.






(** ** Shapes, empty input and NaN *)

Lemma broadcast2_mismatch (f : fval -> fval -> fval) (a b : tensor) :
  length a <> length b -> length a <> 1%nat -> length b <> 1%nat ->
  broadcast2 f a b = None.
Proof.
  intros Hne Ha Hb. unfold broadcast2.
  destruct (Nat.eqb_spec (length a) (length b)) as [E | _]; [contradiction |].
  destruct a as [| x [| x' a]]; [| simpl in Ha; lia |];
    destruct b as [| y [| y' b]]; try reflexivity; simpl in *; try lia.
Qed.

(** X6. Predictions and labels of different lengths, neither of length 1,
    cannot be subtracted: the loss raises, whatever the weights. *)
Theorem weighted_mse_loss_shape_mismatch (pred : tensor) (target : list Z)
    (weight : option tensor)
    (Hne : length pred <> length target)
    (Hp : length pred <> 1%nat) (Ht : length target <> 1%nat) :
  weighted_mse_loss pred target weight = None.
Proof.
  unfold weighted_mse_loss.
  rewrite (broadcast2_mismatch fsub pred (to_dtype target))
    by (unfold to_dtype; rewrite ?length_map; assumption).
  destruct weight as [wt |]; cbn [obind]; [| reflexivity].
  destruct (index_tensor wt target); reflexivity.
Qed.

Lemma weighted_mse_loss_shape_mismatch_witness :
  (length [Fin 1; Fin 2; Fin 3] <> length [1; 2]
   /\ length [Fin 1; Fin 2; Fin 3] <> 1%nat /\ length [1; 2] <> 1%nat)
  /\ weighted_mse_loss [Fin 1; Fin 2; Fin 3] [1; 2] None = None.
Proof.
  assert (H1 : length [Fin 1; Fin 2; Fin 3] <> length [1; 2]) by discriminate.
  assert (H2 : length [Fin 1; Fin 2; Fin 3] <> 1%nat) by discriminate.
  assert (H3 : length [1; 2] <> 1%nat) by discriminate.
  split; [exact (conj H1 (conj H2 H3)) |].
  exact (weighted_mse_loss_shape_mismatch [Fin 1; Fin 2; Fin 3] [1; 2] None H1 H2 H3).
Defined.

Lemma map2_repeat_l {C D} (f : fval -> C -> D) (x : fval) (b : list C) :
  map2 f (repeat x (length b)) b = map (f x) b.
Proof.
  induction b as [| y b IH]; simpl; [reflexivity |]. now rewrite IH.
Qed.

(** X7. The loss of no prediction against no label is NaN (the mean of an
    empty tensor), whatever the weights; and a single prediction is
    broadcast against the labels: its loss is the one of the prediction
    repeated once for each label. *)
Theorem weighted_mse_loss_empty_and_broadcast :
  (forall weight, weighted_mse_loss [] [] weight = Some NaN)
  /\ (forall (p : fval) (target : list Z),
        weighted_mse_loss [p] target None
        = weighted_mse_loss (repeat p (length target)) target None).
Proof.
  split.
  - intros [wt |]; reflexivity.
  - intros p target. rewrite !weighted_mse_loss_default. unfold mse_loss.
    rewrite (broadcast2_same fsub (repeat p (length target)))
      by (unfold to_dtype; now rewrite repeat_length, length_map).
    replace (length target) with (length (to_dtype target))
      by (unfold to_dtype; apply length_map).
    rewrite map2_repeat_l.
    unfold broadcast2.
    destruct (Nat.eqb_spec (length [p]) (length (to_dtype target))) as [E | _];
      [| reflexivity].
    destruct (to_dtype target) as [| y [| ? ?]]; try discriminate. reflexivity.
Qed.

Lemma fold_fadd_nan_acc (l : tensor) : fold_left fadd l NaN = NaN.
Proof.
  induction l as [| x l IH]; simpl; [reflexivity | exact IH].
Qed.

Lemma fadd_nan_r (a : fval) : fadd a NaN = NaN.
Proof. now destruct a. Qed.

Lemma fmul_nan_r (a : fval) : fmul a NaN = NaN.
Proof. now destruct a. Qed.

Lemma tsum_nan (l : tensor) : In NaN l -> tsum l = NaN.
Proof.
  unfold tsum. generalize (Fin 0). induction l as [| x l IH]; intros a H.
  - contradiction.
  - simpl. destruct H as [-> | H].
    + rewrite fadd_nan_r. apply fold_fadd_nan_acc.
    + now apply IH.
Qed.

Lemma mean_nan (l : tensor) : In NaN l -> mean l = NaN.
Proof. intros H. unfold mean. now rewrite tsum_nan. Qed.

Lemma map2_nan_l {C} (f : fval -> C -> fval) (a : tensor) (b : list C) :
  (forall y, f NaN y = NaN) -> length a = length b ->
  In NaN a -> In NaN (map2 f a b).
Proof.
  intros Hf. revert b; induction a as [| x a IH]; intros [| y b] Hlen H;
    simpl in *; try contradiction; try discriminate.
  destruct H as [-> | H]; [left; apply Hf | right; apply IH; [lia | exact H]].
Qed.

Lemma map2_nan_r {C} (f : C -> fval -> fval) (a : list C) (b : tensor) :
  (forall x, f x NaN = NaN) -> length a = length b ->
  In NaN b -> In NaN (map2 f a b).
Proof.
  intros Hf. revert b; induction a as [| x a IH]; intros [| y b] Hlen H;
    simpl in *; try contradiction; try discriminate.
  destruct H as [-> | H]; [left; apply Hf | right; apply IH; [lia | exact H]].
Qed.

Lemma errors_nan (pred : tensor) (target : list Z) :
  length pred = length target -> In NaN pred ->
  In NaN (pow2 (map2 fsub pred (to_dtype target))).
Proof.
  intros Hlen H. unfold pow2.
  change NaN with (fpow2 NaN). apply in_map.
  apply map2_nan_l; [reflexivity | | exact H].
  unfold to_dtype. now rewrite length_map.
Qed.

Lemma clamp_nan (lo hi : fval) (pred : tensor) :
  In NaN pred -> In NaN (clamp lo hi pred).
Proof.
  intros H. unfold clamp. change NaN with (fclamp lo hi NaN).
  now apply in_map.
Qed.

(** X8. A NaN among the predictions is not caught anywhere: the training
    loss is NaN, without weights and with any weight vector the labels
    index, and so is the mean squared error that the evaluation takes after
    clamping. *)
Theorem nan_prediction_gives_nan (pred : tensor) (target : list Z)
    (Hlen : length pred = length target) (Hnan : In NaN pred) :
  weighted_mse_loss pred target None = Some NaN
  /\ (forall wt ws, index_tensor wt target = Some ws ->
        weighted_mse_loss pred target (Some wt) = Some NaN)
  /\ mse_loss (clamp (of_int 0) (of_int 5) pred) (to_dtype target) = Some NaN.
Proof.
  pose proof (errors_nan pred target Hlen Hnan) as He.
  split; [| split].
  - rewrite weighted_mse_loss_default, mse_loss_same_length by exact Hlen.
    now rewrite mean_nan.
  - intros wt ws Hws. unfold weighted_mse_loss. rewrite Hws.
    cbn [option_map obind].
    rewrite broadcast2_same by (unfold to_dtype; now rewrite length_map).
    cbn [obind]. unfold mul_operand.
    pose proof (sub_length pred target Hlen) as Hd.
    pose proof (mapM_length _ _ _ Hws) as Hwl.
    rewrite broadcast2_same by lia. cbn [obind].
    rewrite mean_nan; [reflexivity |].
    apply map2_nan_r; [apply fmul_nan_r | lia | exact He].
  - rewrite mse_loss_same_length by (now rewrite clamp_length).
    rewrite mean_nan; [reflexivity |].
    apply errors_nan; [now rewrite clamp_length | now apply clamp_nan].
Qed.

Lemma nan_prediction_gives_nan_witness :
  (length [Fin 4; NaN; Fin 2] = length [3; 1; 3] /\ In NaN [Fin 4; NaN; Fin 2])
  /\ weighted_mse_loss [Fin 4; NaN; Fin 2] [3; 1; 3] None = Some NaN
  /\ (forall wt ws, index_tensor wt [3; 1; 3] = Some ws ->
        weighted_mse_loss [Fin 4; NaN; Fin 2] [3; 1; 3] (Some wt) = Some NaN)
  /\ mse_loss (clamp (of_int 0) (of_int 5) [Fin 4; NaN; Fin 2]) (to_dtype [3; 1; 3])
     = Some NaN.
Proof.
  assert (Hin : In NaN [Fin 4; NaN; Fin 2]) by (simpl; auto).
  split; [exact (conj eq_refl Hin) |].
  exact (nan_prediction_gives_nan [Fin 4; NaN; Fin 2] [3; 1; 3] eq_refl Hin).
Defined.

(** ** The evaluation *)

Lemma fclamp_finite (x : fval) :
  is_nan x = false ->
  exists q, fclamp (of_int 0) (of_int 5) x = Fin q /\ (0 <= q <= 5)%Q.
Proof.
  intros Hx. destruct (fclamp_bounds x Hx) as [H0 H5].
  assert (Hfin : exists q, fclamp (of_int 0) (of_int 5) x = Fin q).
  { destruct x as [q | | |]; try discriminate; try (eexists; reflexivity).
    unfold fclamp, of_int, fmax, fmin, fltb; simpl.
    destruct (q ?= inject_Z 0)%Q; simpl;
      try destruct (inject_Z 5 ?= q)%Q; simpl; eexists; reflexivity. }
  destruct Hfin as [q Hq]. rewrite Hq in *. exists q. split; [reflexivity |].
  unfold fleb, fcompare in H0, H5. split; apply Qle_alt; intros E.
  - now rewrite E in H0.
  - now rewrite E in H5.
Qed.

Lemma clamp_finite (pred : tensor) :
  Forall (fun x => is_nan x = false) pred ->
  exists qs, clamp (of_int 0) (of_int 5) pred = finite qs
             /\ Forall (fun q => (0 <= q <= 5)%Q) qs.
Proof.
  induction 1 as [| x pred Hx _ [qs [Hqs Hall]]].
  - exists []. split; [reflexivity | constructor].
  - destruct (fclamp_finite x Hx) as [q [Hq Hb]].
    exists (q :: qs). split; [| now constructor].
    simpl. now rewrite Hq, Hqs.
Qed.

Lemma fclamp_in_range (q : Q) :
  (0 <= q <= 5)%Q -> fclamp (of_int 0) (of_int 5) (Fin q) = Fin q.
Proof.
  intros [H0 H5]. unfold fclamp, of_int, fmax, fltb; simpl.
  change (inject_Z 0) with 0%Q. change (inject_Z 5) with 5%Q.
  apply (proj1 (Qle_alt _ _)) in H0. apply (proj1 (Qle_alt _ _)) in H5.
  rewrite <- (Qcompare_antisym 0 q).
  assert (E : fmin (Fin q) (Fin 5) = Fin q).
  { unfold fmin, fltb; simpl. rewrite <- (Qcompare_antisym q 5).
    destruct (q ?= 5)%Q; simpl; try reflexivity. now elim H5. }
  destruct (0 ?= q)%Q; simpl; try exact E. now elim H0.
Qed.

Lemma sq_error_at_most_25 (q : Q) (t : Z) :
  (0 <= q <= 5)%Q -> 0 <= t <= 5 -> (sq_error q t <= 25)%Q.
Proof.
  intros [Hq0 Hq5] [Ht0 Ht5]. unfold sq_error.
  rewrite Zle_Qle in Ht0, Ht5.
  change (inject_Z 0) with 0%Q in Ht0. change (inject_Z 5) with 5%Q in Ht5.
  set (x := (q - inject_Z t)%Q).
  assert (H : (0 <= (5 - x) * (5 + x))%Q)
    by (apply Qmult_le_0_compat; unfold x; lra).
  assert (E : ((5 - x) * (5 + x) == 25 - x * x)%Q) by ring.
  rewrite E in H. lra.
Qed.

Lemma qsum_at_most (c : Q) (l : list Q) :
  Forall (fun x => (x <= c)%Q) l ->
  (qsum l <= c * inject_Z (Z.of_nat (length l)))%Q.
Proof.
  induction 1 as [| x l Hx _ IH].
  - unfold qsum. cbn [fold_left length Z.of_nat].
    change (inject_Z 0) with 0%Q. lra.
  - rewrite qsum_cons. cbn [length]. rewrite Nat2Z.inj_succ.
    unfold Z.succ. rewrite inject_Z_plus. change (inject_Z 1) with 1%Q. lra.
Qed.

Lemma sq_errors_at_most_25 (qs : list Q) (ts : list Z) :
  Forall (fun q => (0 <= q <= 5)%Q) qs -> Forall (fun t => 0 <= t <= 5) ts ->
  Forall (fun x => (x <= 25)%Q) (sq_errors qs ts).
Proof.
  intros Hq. revert ts; induction Hq as [| q qs Hq _ IH]; intros ts Ht;
    [constructor |].
  destruct Ht as [| t ts Ht Hts]; simpl; constructor.
  - now apply sq_error_at_most_25.
  - now apply IH.
Qed.

Lemma eval_mse_at_most_25 (pred : tensor) (labels : list Z) :
  length pred = length labels -> labels <> [] ->
  Forall (fun x => is_nan x = false) pred ->
  Forall (fun t => 0 <= t <= 5) labels ->
  exists v,
    mse_loss (clamp (of_int 0) (of_int 5) pred) (to_dtype labels) = Some (Fin v)
    /\ (0 <= v <= 25)%Q.
Proof.
  intros Hlen Hne Hfin Hlab.
  destruct (clamp_finite pred Hfin) as [qs [Hqs Hall]].
  assert (Hql : length qs = length labels).
  { apply (f_equal (@length fval)) in Hqs.
    rewrite clamp_length in Hqs. unfold finite in Hqs.
    rewrite length_map in Hqs. lia. }
  pose proof (sq_errors_length qs labels Hql) as Hsl.
  assert (Hne' : sq_errors qs labels <> []).
  { intros E. rewrite E in Hsl. destruct labels; [contradiction | discriminate]. }
  exists (qmean (sq_errors qs labels)). split.
  - rewrite Hqs, mse_loss_same_length
      by (unfold finite; now rewrite length_map).
    now rewrite errors_finite, mean_finite.
  - destruct (qmean_sign _ Hne') as [Hpos _]. split.
    + apply Hpos, qsum_nonneg, sq_errors_nonneg.
    + pose proof (qsum_at_most 25 _ (sq_errors_at_most_25 qs labels Hall Hlab)) as Hs.
      unfold qmean. apply Qle_shift_div_r; [| exact Hs].
      change 0%Q with (inject_Z 0). rewrite <- Zlt_Qlt.
      destruct (sq_errors qs labels); [contradiction | simpl; lia].
Qed.

(** X10. When every prediction is a number between 0 and 5, the clamp of
    the evaluation changes nothing: the mean squared error that [test]
    takes the root of is the loss that [train] computes without weights. *)
Theorem in_range_eval_is_plain_loss (ps : list Q) (ts : list Z)
    (Hrange : Forall (fun q => (0 <= q <= 5)%Q) ps) :
  clamp (of_int 0) (of_int 5) (finite ps) = finite ps
  /\ mse_loss (clamp (of_int 0) (of_int 5) (finite ps)) (to_dtype ts)
     = weighted_mse_loss (finite ps) ts None.
Proof.
  assert (E : clamp (of_int 0) (of_int 5) (finite ps) = finite ps).
  { induction Hrange as [| q ps Hq _ IH]; simpl; [reflexivity |].
    now rewrite fclamp_in_range, IH. }
  split; [exact E |].
  now rewrite E, weighted_mse_loss_default.
Qed.

Lemma in_range_eval_is_plain_loss_witness :
  let ps := [0; 7 # 2; 5]%Q in
  Forall (fun q => (0 <= q <= 5)%Q) ps
  /\ clamp (of_int 0) (of_int 5) (finite ps) = finite ps
  /\ mse_loss (clamp (of_int 0) (of_int 5) (finite ps)) (to_dtype [1; 4; 5])
     = weighted_mse_loss (finite ps) [1; 4; 5] None.
Proof.
  intros ps.
  assert (Hrange : Forall (fun q => (0 <= q <= 5)%Q) ps)
    by (repeat constructor; discriminate).
  split; [exact Hrange |].
  exact (in_range_eval_is_plain_loss ps [1; 4; 5] Hrange).
Defined.

Section Evaluation.

Context {B : Backend}.

(** X9. On a split with at least one label, all labels between 0 and 5,
    and a forward pass that returns no NaN, the number [test] returns is
    the root of a finite value between 0 and 25: the reported RMSE is at
    most 5, however far off (or infinite) the raw predictions are. *)
Theorem test_rmse_at_most_5 (data : HeteroData) (w : world) (pred : tensor)
    (Hfwd : forward_ok (encoder_params (model w)) (decoder (model w)) data pred)
    (Hfin : Forall (fun x => is_nan x = false) pred)
    (Hlab : Forall (fun t => 0 <= t <= 5) (edge_label data))
    (Hne : edge_label data <> []) :
  exists v w', test data w = Some (Sqrt (Fin v), w') /\ (0 <= v <= 25)%Q.
Proof.
  destruct (test_run data w pred Hfwd) as [mse [Hmse Ht]].
  destruct (eval_mse_at_most_25 pred (edge_label data)) as [v [Hv Hb]]; auto.
  { destruct Hfwd as [_ [z [_ [_ Hlen]]]]. exact Hlen. }
  assert (mse = Fin v) by congruence. subst mse.
  exists v, (after_test w). split; assumption.
Qed.

(** X11. Evaluating two splits gives the same two numbers and the same
    final state in either order: an evaluation does not disturb the one
    that follows. *)
Theorem test_order_irrelevant (d1 d2 : HeteroData) (w : world)
    (pred1 pred2 : tensor)
    (H1 : forward_ok (encoder_params (model w)) (decoder (model w)) d1 pred1)
    (H2 : forward_ok (encoder_params (model w)) (decoder (model w)) d2 pred2) :
  exists r1 r2 w',
    bind (test d1) (fun a => bind (test d2) (fun b => ret (a, b))) w
    = Some ((r1, r2), w')
    /\ bind (test d2) (fun b => bind (test d1) (fun a => ret (a, b))) w
       = Some ((r1, r2), w').
Proof.
  destruct (test_run d1 w pred1 H1) as [m1 [Hm1 Ht1]].
  destruct (test_run d2 w pred2 H2) as [m2 [Hm2 Ht2]].
  destruct (test_run d2 (after_test w) pred2 H2) as [m2' [Hm2' Ht2']].
  destruct (test_run d1 (after_test w) pred1 H1) as [m1' [Hm1' Ht1']].
  assert (m1' = m1) by congruence. assert (m2' = m2) by congruence. subst.
  exists (Sqrt m1), (Sqrt m2), (after_test (after_test w)).
  unfold bind, ret. rewrite Ht1, Ht2', Ht2, Ht1'. split; reflexivity.
Qed.

End Evaluation.

Lemma toy_forward_ok :
  forward_ok (B := Toy.backend) (encoder_params (model Toy.trained))
    (decoder (model Toy.trained)) Toy.data [Fin 32]
  /\ forward_ok (B := Toy.backend) (encoder_params (model Toy.trained))
       (decoder (model Toy.trained)) Toy.other [Fin 32].
Proof.
  split; (split; [reflexivity |]; eexists; split; [reflexivity |];
          split; [vm_compute; reflexivity | reflexivity]).
Qed.

Lemma test_rmse_at_most_5_witness :
  (forward_ok (B := Toy.backend) (encoder_params (model Toy.trained))
     (decoder (model Toy.trained)) Toy.data [Fin 32]
   /\ Forall (fun x => is_nan x = false) [Fin 32]
   /\ Forall (fun t => 0 <= t <= 5) (edge_label Toy.data)
   /\ edge_label Toy.data <> [])
  /\ exists v w', test (B := Toy.backend) Toy.data Toy.trained
                  = Some (Sqrt (Fin v), w')
                  /\ (0 <= v <= 25)%Q.
Proof.
  assert (Hfin : Forall (fun x => is_nan x = false) [Fin 32])
    by (repeat constructor).
  assert (Hlab : Forall (fun t => 0 <= t <= 5) (edge_label Toy.data))
    by (repeat constructor; simpl; lia).
  assert (Hne : edge_label Toy.data <> []) by discriminate.
  split; [exact (conj (proj1 toy_forward_ok) (conj Hfin (conj Hlab Hne))) |].
  exact (test_rmse_at_most_5 (B := Toy.backend) Toy.data Toy.trained [Fin 32]
           (proj1 toy_forward_ok) Hfin Hlab Hne).
Defined.

Lemma test_order_irrelevant_witness :
  (forward_ok (B := Toy.backend) (encoder_params (model Toy.trained))
     (decoder (model Toy.trained)) Toy.data [Fin 32]
   /\ forward_ok (B := Toy.backend) (encoder_params (model Toy.trained))
        (decoder (model Toy.trained)) Toy.other [Fin 32])
  /\ exists r1 r2 w',
       bind (test (B := Toy.backend) Toy.data)
            (fun a => bind (test Toy.other) (fun b => ret (a, b))) Toy.trained
       = Some ((r1, r2), w')
       /\ bind (test (B := Toy.backend) Toy.other)
               (fun b => bind (test Toy.data) (fun a => ret (a, b))) Toy.trained
          = Some ((r1, r2), w').
Proof.
  split; [exact toy_forward_ok |].
  exact (test_order_irrelevant (B := Toy.backend) Toy.data Toy.other Toy.trained
           [Fin 32] [Fin 32] (proj1 toy_forward_ok) (proj2 toy_forward_ok)).
Defined.

(** ** The training step and the whole script *)

Section Training.

Context {B : Backend}.

(** X12. A training step that succeeds returns the loss of the predictions
    made with the parameters it starts from, then updates: the gradient it
    leaves is the fresh gradient at those parameters (what was accumulated
    before is discarded), exactly one Adam step is applied with the learning
    rate of the optimizer, which is unchanged, the optimizer and the model
    hold the same new parameters, the model is in training mode and nothing
    is printed. *)
Theorem train_applies_one_step (train_data : HeteroData)
    (weight : option tensor) (w : world) (o : Optimizer) (pred : tensor)
    (loss : fval)
    (Hgrad : grad_enabled w = true)
    (Hopt : optimizer w = Some o)
    (Hfwd : forward_ok (encoder_params (model w)) (decoder (model w))
              train_data pred)
    (Hloss : weighted_mse_loss pred (edge_label train_data) weight = Some loss) :
  let g := autograd (encoder_params (model w)) (decoder (model w))
             (graph train_data) (edge_label_index train_data)
             (edge_label train_data) weight in
  exists w' o',
    train train_data weight w = Some (loss, w')
    /\ grads w' = Some g
    /\ optimizer w' = Some o'
    /\ lr o' = lr o
    /\ (opt_state o', opt_params o')
       = adam_step (lr o) (opt_state o) (encoder_params (model w))
           (decoder (model w)) g
    /\ opt_params o' = (encoder_params (model w'), decoder (model w'))
    /\ training (model w') = true
    /\ grad_enabled w' = true
    /\ stdout w' = stdout w.
Proof.
  intros g.
  pose proof (train_run train_data weight w o pred loss Hgrad Hopt Hfwd Hloss)
    as Ht.
  set (r := adam_step (lr o) (opt_state o) (encoder_params (model w))
              (decoder (model w)) g).
  exists (after_train train_data weight o w),
         (mkOptimizer (snd r) (lr o) (fst r)).
  split; [exact Ht |].
  unfold after_train. fold g. fold r.
  cbn [grads optimizer lr opt_state opt_params model
       training grad_enabled stdout encoder_params decoder].
  split; [reflexivity |]. split; [reflexivity |]. split; [reflexivity |].
  split; [now destruct r |]. split; [now destruct r as [st [p dec]] |].
  repeat split.
Qed.

(** X13. With gradient tracking disabled the training step cannot run:
    whatever the model, the data and the weights, [train] raises (at the
    latest in [loss.backward()], the loss being detached) and returns no
    loss. *)
Theorem train_without_grad_raises (train_data : HeteroData)
    (weight : option tensor) (w : world)
    (Hgrad : grad_enabled w = false) :
  train train_data weight w = None.
Proof.
  unfold train, bind, set_training, zero_grad, Model_forward, lift, backward;
    simpl.
  destruct (optimizer w); [| reflexivity]. simpl.
  destruct (encoder _ _); [| reflexivity].
  destruct (EdgeDecoder_forward _ _ _); [| reflexivity]. simpl.
  destruct (weighted_mse_loss _ _ _); [| reflexivity].
  now rewrite Hgrad.
Qed.

(** X14. The script as a whole: when the weights can be computed from the
    training labels, the parameters after the first encoder pass are ones
    on which the model runs on the three splits, and Adam keeps them so, the
    script returns; it has printed exactly 300 lines, numbered 1 to 300, and
    what it did is the construction of the model, the encoder pass without
    gradients, the creation of the optimizer and then the 300 iterations;
    the learning rate is 0.01 from the start to the end. *)
Theorem script_runs (use_weighted_loss : bool)
    (train_data val_data test_data : HeteroData) (weight : option tensor)
    (good : EncParams -> EdgeDecoder -> Prop)
    (good_forward :
       forall p dec d, good p dec -> In d [train_data; val_data; test_data] ->
         exists pred, forward_ok p dec d pred)
    (good_step :
       forall l st p dec g, good p dec ->
         good (fst (snd (adam_step l st p dec g)))
              (snd (snd (adam_step l st p dec g))))
    (good_start :
       good (materialize (encoder_init 32) (graph train_data)) (decoder_init 32))
    (Hweight : script_weight use_weighted_loss (edge_label train_data)
               = Some weight) :
  exists w' lines,
    script use_weighted_loss train_data val_data test_data = Some (tt, w')
    /\ stdout w' = lines
    /\ map line_epoch lines = seq 1 300
    /\ trace w' = [EvConstruct 32; EvEncoderForward false; EvOptimizerInit]
                  ++ flat_map epoch_events lines
    /\ exists o, optimizer w' = Some o /\ lr o = (1 # 100)%Q.
Proof.
  destruct (good_forward _ _ train_data good_start) as [pred Hf]; [simpl; auto |].
  destruct Hf as [Hmat [z [Hz _]]].
  set (p1 := materialize (encoder_init 32) (graph train_data)) in *.
  set (w0 := mkWorld (mkModel p1 (decoder_init 32) true) true None
               (Some (mkOptimizer (p1, decoder_init 32) (1 # 100)
                        (adam_init p1 (decoder_init 32))))
               [] [EvConstruct 32; EvEncoderForward false; EvOptimizerInit]).
  assert (Hinit : initialize train_data start = Some (tt, w0)).
  { unfold initialize, bind, no_grad, encoder_call, Adam; simpl.
    fold p1. rewrite Hz. reflexivity. }
  destruct (loop_run train_data val_data test_data use_weighted_loss weight good
              good_forward good_step Hweight (1 # 100)%Q 300 1 w0)
    as [w' [lines [Hrun [_ [Hout [Hnum [Htr [_ [Ho _]]]]]]]]].
  { split; [reflexivity |]. split; [| exact good_start].
    eexists; split; reflexivity. }
  exists w', lines. split; [| split; [| split; [| split]]].
  - unfold script. rewrite Hweight. cbn [obind]. unfold bind.
    rewrite Hinit. exact Hrun.
  - exact Hout.
  - exact Hnum.
  - exact Htr.
  - exact Ho.
Qed.

End Training.

Lemma train_applies_one_step_witness :
  (grad_enabled Toy.trained = true
   /\ forward_ok (B := Toy.backend) (encoder_params (model Toy.trained))
        (decoder (model Toy.trained)) Toy.data [Fin 32]
   /\ weighted_mse_loss [Fin 32] (edge_label Toy.data) None = Some (Fin 729))
  /\ exists w' o',
       train (B := Toy.backend) Toy.data None Toy.trained = Some (Fin 729, w')
       /\ grads w' = Some tt
       /\ optimizer w' = Some o'
       /\ lr o' = (1 # 100)%Q
       /\ (opt_state o', opt_params o') = (1%nat, (false, Toy.decoder 32))
       /\ opt_params o' = (encoder_params (model w'), decoder (model w'))
       /\ training (model w') = true
       /\ grad_enabled w' = true
       /\ stdout w' = stdout Toy.trained.
Proof.
  split; [exact (conj eq_refl (conj (proj1 toy_forward_ok) eq_refl)) |].
  exact (train_applies_one_step (B := Toy.backend) Toy.data None Toy.trained
           (@mkOptimizer Toy.backend (false, Toy.decoder 32) (1 # 100) O)
           [Fin 32] (Fin 729) eq_refl eq_refl (proj1 toy_forward_ok) eq_refl).
Defined.

Lemma train_without_grad_raises_witness :
  grad_enabled (set_grad_enabled false Toy.trained) = false
  /\ train (B := Toy.backend) Toy.data None (set_grad_enabled false Toy.trained)
     = None.
Proof.
  split; [reflexivity |].
  exact (train_without_grad_raises (B := Toy.backend) Toy.data None
           (set_grad_enabled false Toy.trained) eq_refl).
Defined.

Lemma script_runs_witness :
  let good := fun (p : bool) (dec : EdgeDecoder) => p = false /\ dec = Toy.decoder 32 in
  let weight := Some (int_true_divide 1 [0; 0; 0; 0; 0; 1]) in
  (good (materialize (Backend := Toy.backend) (encoder_init 32) (graph Toy.data))
        (decoder_init (Backend := Toy.backend) 32)
   /\ script_weight true (edge_label Toy.data) = Some weight)
  /\ exists w' lines,
       script (B := Toy.backend) true Toy.data Toy.other Toy.data = Some (tt, w')
       /\ stdout w' = lines
       /\ map line_epoch lines = seq 1 300
       /\ trace w' = [EvConstruct 32; EvEncoderForward false; EvOptimizerInit]
                     ++ flat_map epoch_events lines
       /\ exists o, optimizer w' = Some o /\ lr o = (1 # 100)%Q.
Proof.
  intros good weight.
  assert (Hfwd : forall p dec d, good p dec -> In d [Toy.data; Toy.other; Toy.data] ->
                   exists pred, forward_ok (B := Toy.backend) p dec d pred).
  { intros p dec d [-> ->] Hd. exists [Fin 32].
    destruct Hd as [<- | [<- | [<- | []]]];
      first [exact (proj1 toy_forward_ok) | exact (proj2 toy_forward_ok)]. }
  assert (Hstep : forall l st p dec g, good p dec ->
                    good (fst (snd (adam_step (Backend := Toy.backend) l st p dec g)))
                         (snd (snd (adam_step (Backend := Toy.backend) l st p dec g))))
    by (intros l st p dec g H; exact H).
  assert (Hstart : good (materialize (Backend := Toy.backend) (encoder_init 32)
                           (graph Toy.data))
                        (decoder_init (Backend := Toy.backend) 32))
    by (split; reflexivity).
  split; [exact (conj Hstart eq_refl) |].
  exact (script_runs (B := Toy.backend) true Toy.data Toy.other Toy.data weight
           good Hfwd Hstep Hstart eq_refl).
Defined.

(** ** The decoder on batches and on bad input *)

Lemma mapM_app {A C} (f : A -> option C) (a b : list A) :
  mapM f (a ++ b) = (x <- mapM f a ;; y <- mapM f b ;; Some (x ++ y)).
Proof.
  induction a as [| x a IH]; simpl.
  - now destruct (mapM f b).
  - destruct (f x); simpl; [| reflexivity]. rewrite IH.
    destruct (mapM f a); simpl; [| reflexivity].
    now destruct (mapM f b).
Qed.

Lemma mapM_fails {A C} (f : A -> option C) (l : list A) (a : A) :
  In a l -> f a = None -> mapM f l = None.
Proof.
  induction l as [| x l IH]; simpl; [contradiction |].
  intros [-> | Hin] Hf.
  - now rewrite Hf.
  - destruct (f x); simpl; [| reflexivity]. now rewrite IH.
Qed.

Lemma map2_app {A C D} (f : A -> C -> D) (a1 a2 : list A) (b1 b2 : list C) :
  length a1 = length b1 ->
  map2 f (a1 ++ a2) (b1 ++ b2) = map2 f a1 b1 ++ map2 f a2 b2.
Proof.
  revert b1; induction a1 as [| x a1 IH]; intros [| y b1] H; simpl in *;
    try discriminate; [reflexivity |].
  now rewrite IH by lia.
Qed.

Lemma getitem_out_of_range {A} (t : list A) (i : Z) :
  i < - Z.of_nat (length t) \/ Z.of_nat (length t) <= i -> getitem t i = None.
Proof.
  intros H. unfold getitem, norm_index.
  destruct (0 <=? i) eqn:E0; simpl.
  - apply Z.leb_le in E0.
    replace (i <? Z.of_nat (length t)) with false
      by (symmetry; apply Z.ltb_ge; lia).
    replace (i <? 0) with false by (symmetry; apply Z.ltb_ge; lia).
    now rewrite andb_false_r.
  - apply Z.leb_gt in E0.
    replace (- Z.of_nat (length t) <=? i) with false
      by (symmetry; apply Z.leb_gt; lia).
    reflexivity.
Qed.

(** The decoder after the two lookups: gather, concatenate, two layers,
    flatten. *)
Lemma EdgeDecoder_forward_found (self : EdgeDecoder) (z_dict : z_dict_t)
    (zu zm : matrix) (row col : list Z) :
  dict_get z_dict "user"%string = Some zu ->
  dict_get z_dict "movie"%string = Some zm ->
  EdgeDecoder_forward self z_dict [row; col]
  = (zu_row <- mapM (getitem zu) row ;;
     zm_col <- mapM (getitem zm) col ;;
     z <- cat_last zu_row zm_col ;;
     z <- mapM (fun r => if (length r =? in_features (lin1 self))%nat
                         then Some (affine (lin1 self) r) else None) z ;;
     z <- mapM (fun r => if (length r =? in_features (lin2 self))%nat
                         then Some (affine (lin2 self) r) else None) (relu z) ;;
     Some (concat z)).
Proof.
  intros Hu Hm. unfold EdgeDecoder_forward. rewrite Hu. cbn [obind].
  unfold index_tensor. destruct (mapM (getitem zu) row); cbn [obind];
    [| reflexivity].
  now rewrite Hm.
Qed.

(** X15. Scoring a batch of candidate pairs is scoring its two halves and
    putting the scores one after the other: the scores of a pair do not
    depend on the batch it is in, and the batch raises exactly when one of
    the halves does. *)
Theorem EdgeDecoder_forward_batches (self : EdgeDecoder) (z_dict : z_dict_t)
    (row1 row2 col1 col2 : list Z) (Hlen : length row1 = length col1) :
  EdgeDecoder_forward self z_dict [row1 ++ row2; col1 ++ col2]
  = (out1 <- EdgeDecoder_forward self z_dict [row1; col1] ;;
     out2 <- EdgeDecoder_forward self z_dict [row2; col2] ;;
     Some (out1 ++ out2)).
Proof.
  destruct (dict_get z_dict "user"%string) as [zu |] eqn:Hu;
    [| unfold EdgeDecoder_forward; now rewrite Hu].
  destruct (dict_get z_dict "movie"%string) as [zm |] eqn:Hm.
  2:{ unfold EdgeDecoder_forward. rewrite Hu, Hm. cbn [obind].
      unfold index_tensor. rewrite mapM_app.
      destruct (mapM (getitem zu) row1); cbn [obind]; [| reflexivity].
      now destruct (mapM (getitem zu) row2). }
  rewrite !(EdgeDecoder_forward_found self z_dict zu zm) by assumption.
  rewrite !mapM_app.
  destruct (mapM (getitem zu) row1) as [U1 |] eqn:EU1; cbn [obind];
    [| reflexivity].
  destruct (mapM (getitem zm) col1) as [V1 |] eqn:EV1; cbn [obind].
  2:{ now destruct (mapM (getitem zu) row2). }
  assert (HUV : length U1 = length V1).
  { apply mapM_length in EU1, EV1. lia. }
  unfold cat_last at 2. rewrite HUV, Nat.eqb_refl. cbn [obind].
  set (f1 := fun r : list fval =>
               if (length r =? in_features (lin1 self))%nat
               then Some (affine (lin1 self) r) else None).
  set (f2 := fun r : list fval =>
               if (length r =? in_features (lin2 self))%nat
               then Some (affine (lin2 self) r) else None).
  destruct (mapM (getitem zu) row2) as [U2 |] eqn:EU2; cbn [obind].
  2:{ destruct (mapM f1 (map2 (@app fval) U1 V1)); cbn [obind]; [| reflexivity].
      now destruct (mapM f2 (relu l)). }
  destruct (mapM (getitem zm) col2) as [V2 |] eqn:EV2; cbn [obind].
  2:{ destruct (mapM f1 (map2 (@app fval) U1 V1)); cbn [obind]; [| reflexivity].
      now destruct (mapM f2 (relu l)). }
  unfold cat_last. rewrite !length_app, HUV.
  replace (length V1 + length U2 =? length V1 + length V2)%nat
    with (length U2 =? length V2)%nat
    by (destruct (Nat.eqb_spec (length U2) (length V2));
        symmetry; [apply Nat.eqb_eq | apply Nat.eqb_neq]; lia).
  destruct (length U2 =? length V2)%nat; cbn [obind].
  2:{ destruct (mapM f1 (map2 (@app fval) U1 V1)); cbn [obind]; [| reflexivity].
      now destruct (mapM f2 (relu l)). }
  rewrite map2_app by exact HUV. rewrite mapM_app.
  destruct (mapM f1 (map2 (@app fval) U1 V1)) as [A1 |]; cbn [obind];
    [| reflexivity].
  destruct (mapM f1 (map2 (@app fval) U2 V2)) as [A2 |]; cbn [obind].
  2:{ now destruct (mapM f2 (relu A1)). }
  replace (relu (A1 ++ A2)) with (relu A1 ++ relu A2)
    by (unfold relu; now rewrite map_app).
  rewrite mapM_app.
  destruct (mapM f2 (relu A1)) as [C1 |]; cbn [obind]; [| reflexivity].
  destruct (mapM f2 (relu A2)) as [C2 |]; cbn [obind]; [| reflexivity].
  now rewrite concat_app.
Qed.

Lemma EdgeDecoder_forward_batches_witness :
  length [0; 1] = length [0; 0]
  /\ EdgeDecoder_forward (Toy.decoder 2) Toy.latents [[0; 1] ++ [-1]; [0; 0] ++ [0]]
     = (out1 <- EdgeDecoder_forward (Toy.decoder 2) Toy.latents [[0; 1]; [0; 0]] ;;
        out2 <- EdgeDecoder_forward (Toy.decoder 2) Toy.latents [[-1]; [0]] ;;
        Some (out1 ++ out2)).
Proof.
  split; [reflexivity |].
  exact (EdgeDecoder_forward_batches (Toy.decoder 2) Toy.latents
           [0; 1] [-1] [0; 0] [0] eq_refl).
Defined.

(** X16. A candidate pair one of whose endpoints is not a row of the latent
    matrix of its node type makes the decoder raise: no score is returned
    for any pair of the batch. *)
Theorem EdgeDecoder_forward_index_error (self : EdgeDecoder) (z_dict : z_dict_t)
    (zu zm : matrix) (row col : list Z) (i : Z)
    (Hu : dict_get z_dict "user"%string = Some zu)
    (Hm : dict_get z_dict "movie"%string = Some zm)
    (Hbad : (In i row /\ (i < - Z.of_nat (length zu) \/ Z.of_nat (length zu) <= i))
            \/ (In i col /\ (i < - Z.of_nat (length zm) \/ Z.of_nat (length zm) <= i))) :
  EdgeDecoder_forward self z_dict [row; col] = None.
Proof.
  rewrite (EdgeDecoder_forward_found self z_dict zu zm) by assumption.
  destruct Hbad as [[Hin Hout] | [Hin Hout]].
  - now rewrite (mapM_fails _ _ _ Hin (getitem_out_of_range zu i Hout)).
  - rewrite (mapM_fails _ _ _ Hin (getitem_out_of_range zm i Hout)).
    now destruct (mapM (getitem zu) row).
Qed.

Lemma EdgeDecoder_forward_index_error_witness :
  (dict_get Toy.latents "user"%string = Some Toy.users
   /\ dict_get Toy.latents "movie"%string = Some Toy.movies
   /\ In 1 [0; 1] /\ Z.of_nat (length Toy.movies) <= 1)
  /\ EdgeDecoder_forward (Toy.decoder 2) Toy.latents [[0; 1]; [0; 1]] = None.
Proof.
  assert (Hin : In 1 [0; 1]) by (simpl; auto).
  assert (Hout : Z.of_nat (length Toy.movies) <= 1) by (simpl; lia).
  split; [exact (conj eq_refl (conj eq_refl (conj Hin Hout))) |].
  exact (EdgeDecoder_forward_index_error (Toy.decoder 2) Toy.latents
           Toy.users Toy.movies [0; 1] [0; 1] 1 eq_refl eq_refl
           (or_intror (conj Hin (or_intror Hout)))).
Defined.

(** X17. The decoder raises when [edge_label_index] does not unpack into
    exactly two index rows, and when the latent vectors of the users or of
    the movies are missing from the mapping. *)
Theorem EdgeDecoder_forward_malformed (self : EdgeDecoder) (z_dict : z_dict_t)
    (edge_label_index : list (list Z))
    (Hbad : length edge_label_index <> 2%nat
            \/ dict_get z_dict "user"%string = None
            \/ dict_get z_dict "movie"%string = None) :
  EdgeDecoder_forward self z_dict edge_label_index = None.
Proof.
  unfold EdgeDecoder_forward.
  destruct edge_label_index as [| row [| col [| ? ?]]]; try reflexivity.
  destruct Hbad as [H | [H | H]].
  - now contradiction H.
  - now rewrite H.
  - destruct (dict_get z_dict "user"%string); cbn [obind]; [| reflexivity].
    destruct (index_tensor m row); cbn [obind]; [| reflexivity].
    now rewrite H.
Qed.

Lemma EdgeDecoder_forward_malformed_witness :
  dict_get [("user"%string, Toy.users)] "movie"%string = None
  /\ EdgeDecoder_forward (Toy.decoder 2) [("user"%string, Toy.users)] [[0]; [0]]
     = None.
Proof.
  split; [reflexivity |].
  exact (EdgeDecoder_forward_malformed (Toy.decoder 2) [("user"%string, Toy.users)]
           [[0]; [0]] (or_intror (or_intror eq_refl))).
Defined.

(** ** The user features *)

Lemma eye_entry (n i j : nat) :
  (i < n)%nat -> (j < n)%nat ->
  exists r, nth_error (eye n) i = Some r
            /\ nth_error r j = Some (if (i =? j)%nat then Fin 1 else Fin 0).
Proof.
  intros Hi Hj. unfold eye. rewrite nth_error_bins by exact Hi.
  eexists. split; [reflexivity |]. now rewrite nth_error_bins.
Qed.

(** X18. The features given to the users are [n] rows of width [n], row
    [i] holding 1 in column [i] and 0 elsewhere; so the number of rows is
    the number of users (which is why the stored node count can be deleted),
    and no two users have the same features. *)
Theorem eye_rows_one_hot (n : nat) :
  length (eye n) = n
  /\ Forall (fun r => length r = n) (eye n)
  /\ (forall i j, (i < n)%nat -> (j < n)%nat ->
        exists r, nth_error (eye n) i = Some r
                  /\ nth_error r j = Some (if (i =? j)%nat then Fin 1 else Fin 0))
  /\ NoDup (eye n).
Proof.
  assert (Hlen : length (eye n) = n)
    by (unfold eye; now rewrite length_map, length_seq).
  split; [exact Hlen |]. split; [| split].
  - unfold eye. apply Forall_forall. intros r Hr.
    apply in_map_iff in Hr. destruct Hr as [i [<- _]].
    now rewrite length_map, length_seq.
  - apply eye_entry.
  - apply NoDup_nth_error. intros i j Hi Heq. rewrite Hlen in Hi.
    destruct (eye_entry n i i Hi Hi) as [r [Hr Hrr]].
    rewrite Nat.eqb_refl in Hrr.
    assert (Hj : (j < n)%nat).
    { rewrite <- Hlen. apply nth_error_Some. rewrite <- Heq, Hr. discriminate. }
    destruct (eye_entry n j i Hj Hi) as [r' [Hr' Hrr']].
    assert (r' = r) by congruence. subst r'.
    destruct (Nat.eqb_spec j i) as [-> | Hne]; [reflexivity |].
    rewrite Hrr in Hrr'. discriminate.
Qed.
